(** * Chisel: pixel erosion and falling pebbles

    A shallow embedding of [chisel/widgets/core/new_core.py].

    Number model.  The Python floats of the physics ([is_dislodged],
    [Pebble.step], [Chisel.poke_power]) are idealised as real numbers: the
    code takes a square root, and the properties of interest are exact only
    over the reals.  The floats of [Chisel.poke] are only subtracted,
    multiplied, compared and truncated, so they are modelled as exact
    rationals and the model of [poke] runs.  Rounding, overflow, infinities
    and NaN are outside the model.  The pixel buffer is a numpy array of
    [uint8]; its channels are integers in [0, 255].

    Object model.  [Pebble] objects are mutated in place and are referenced
    both by the dictionary [chisel.pebbles] and by the Clock event that calls
    their [step]; they live in a heap indexed by object identity.

    Names.  A global name is looked up when the line that reads it runs; a
    name the module does not bind raises [NameError] there. *)

From Stdlib Require Import String ZArith QArith Qround Reals Lra Lia Psatz.
From Stdlib Require Lqa.
From stdpp Require Import gmap list.

(** ** Python exceptions and results *)

Inductive exn : Type :=
  | KeyError (key : nat)
  | ZeroDivisionError
  | NameError (name : string).

Inductive result (A : Type) : Type :=
  | Ok (a : A)
  | Raise (e : exn).

Arguments Ok {A} a.
Arguments Raise {A} e.

#[global] Instance result_ret : MRet result := @Ok.

#[global] Instance result_bind : MBind result :=
  λ A B f c, match c with Ok a => f a | Raise e => Raise e end.

(** ** Module constants (lines 16-26) *)

Definition GRAVITY : R := 0.02.
Definition FRICTION : R := 0.9.
Definition DISLODGE_VELOCITY : R := 1e-3.
Definition MAX_VELOCITY : R := 0.2.

(** [RADIUS = R = 1]; the source uses the alias [R], which is the name of the
    type of reals here. *)
Definition RADIUS : Z := 1.
Definition MIN_POWER : R := 1e-5.
Definition CHISEL_POWER : R := 100.

(** ** Float operations, over the reals *)

Definition Rltb (a b : R) : bool := if Rlt_dec a b then true else false.

Definition Req_bool (a b : R) : bool := if Req_dec_T a b then true else false.

(** Python's [a / b] on floats raises on a zero divisor. *)
Definition py_div (a b : R) : result R :=
  if Req_bool b 0 then Raise ZeroDivisionError else Ok (a / b)%R.

(** The Euclidean norm, [(x**2 + y**2)**.5]. *)
Definition norm (v : R * R) : R := sqrt (fst v ^ 2 + snd v ^ 2).

(** ** The velocity gate (lines 35-47)

    Python's [False] is [None]; a returned tuple is [Some]. *)

Definition is_dislodged (velocity : R * R) : result (option (R * R)) :=
  let '(x, y) := velocity in
  let magnitude := sqrt (x ^ 2 + y ^ 2) in
  if Rltb magnitude DISLODGE_VELOCITY then Ok None
  else if Rltb MAX_VELOCITY magnitude then
    kx ← py_div MAX_VELOCITY magnitude;
    let x := (x * kx)%R in
    ky ← py_div MAX_VELOCITY magnitude;
    let y := (y * ky)%R in
    Ok (Some (x, y))
  else Ok (Some (x, y)).

(** ** Pixel (lines 83-97) *)

Module Pixel.

Record t : Type := mk {
  x : R;
  y : R;
  z : R;
  color : list R;
  pos : R * R
}.

Definition rescale (self : t) (screen_width screen_height : R) : t :=
  {| x := x self; y := y self; z := z self; color := color self;
     pos := (x self * screen_width, y self * screen_height)%R |}.

Definition init (x0 y0 z0 screen_width screen_height : R) (color0 : list R) : t :=
  rescale {| x := x0; y := y0; z := z0; color := color0; pos := (0, 0)%R |}
          screen_width screen_height.

(** The assignment [self.pixel.x, self.pixel.y = x', y']. *)
Definition set_xy (self : t) (x' y' : R) : t :=
  {| x := x'; y := y'; z := z self; color := color self; pos := pos self |}.

End Pixel.

(** ** Pebble objects and the world they live in *)

(** Object identity of a [Pebble]. *)
Abbreviation loc := nat (only parsing).

(** [update] is the Clock event of line 60: [true] while it is scheduled,
    [false] once cancelled.  The field [chisel] is not stored: there is one
    [Chisel] widget, whose state is part of [World]. *)
Record Pebble : Type := mkPebble {
  index : nat;
  pixel : Pixel.t;
  velocity : R * R;
  update : bool
}.

(** A texel is the last axis of the [h x w x 4] array. *)
Record Texel : Type := mkTexel { red : Z; green : Z; blue : Z; alpha : Z }.

(** [image[row][column]]; row 0 is the bottom row. *)
Abbreviation Image := (list (list Texel)).

Record World : Type := mkWorld {
  image : Image;            (* chisel.image *)
  pebbles : gmap nat loc;   (* chisel.pebbles *)
  width : R;                (* chisel.width *)
  height : R;               (* chisel.height *)
  _tool : Z;                (* chisel._tool *)
  heap : gmap loc Pebble    (* the Pebble objects *)
}.

(** ** Pebble.step (lines 62-80) *)

(** Lines 64-76: the motion of one pebble, given the size of the widget. *)
Definition advance (self : Pebble) (chisel_width chisel_height : R) : Pebble :=
  let x := Pixel.x (pixel self) in
  let y := Pixel.y (pixel self) in
  let '(vx, vy) := velocity self in
  let vx := (vx * FRICTION)%R in
  let vy := (vy * FRICTION)%R in
  let vy := (vy - GRAVITY)%R in
  let vx := if negb (Rltb 0 x && Rltb x 1) then (vx * -1)%R else vx in
  let pixel' := Pixel.set_xy (pixel self) (x + vx)%R (Rmax 0 (y + vy)) in
  {| index := index self;
     pixel := Pixel.rescale pixel' chisel_width chisel_height;
     velocity := (vx, vy);
     update := update self |}.

(** [self.update.cancel()]. *)
Definition cancel (self : Pebble) : Pebble :=
  {| index := index self; pixel := pixel self; velocity := velocity self;
     update := false |}.

Definition store (self : loc) (p : Pebble) (w : World) : World :=
  {| image := image w; pebbles := pebbles w; width := width w;
     height := height w; _tool := _tool w; heap := <[self := p]> (heap w) |}.

(** [del chisel.pebbles[key]]: a [KeyError] when the key is absent. *)
Definition del_pebble (key : nat) (w : World) : result World :=
  match pebbles w !! key with
  | None => Raise (KeyError key)
  | Some _ =>
      Ok {| image := image w; pebbles := delete key (pebbles w);
            width := width w; height := height w; _tool := _tool w;
            heap := heap w |}
  end.

(** [step] is a method: it is only ever called on an existing object. *)
Definition step (self : loc) (dt : R) (w : World) : result World :=
  match heap w !! self with
  | None => Ok w
  | Some p =>
      let p := advance p (width w) (height w) in
      if Req_bool (Pixel.y (pixel p)) 0 then
        let p := cancel p in
        del_pebble (index p) (store self p w)
      else Ok (store self p w)
  end.

(** ** The Clock

    A scheduled event calls [step] at every tick; a cancelled one never
    fires again. *)
Definition tick (self : loc) (dt : R) (w : World) : result World :=
  match heap w !! self with
  | Some p => if update p then step self dt w else Ok w
  | None => Ok w
  end.

(** ** Chisel.poke_power (lines 149-162)

    Line 156 reads the global name [CHISEL_RADIUS].  Python looks a global
    name up when the line runs and raises [NameError] when the name has no
    binding.  The module binds [RADIUS] and [R] (line 24) and imports no
    name by star: it binds [CHISEL_RADIUS] nowhere. *)

(** The binding of [CHISEL_RADIUS] in the module: none. *)
Definition CHISEL_RADIUS : option R := None.

(** The body of [poke_power] under a binding of the global name. *)
Definition poke_power_in (binding : option R)
    (tx ty touch_velocity pebble_x pebble_y : R) : result (R * R) :=
  let dx := (pebble_x - tx)%R in
  let dy := (pebble_y - ty)%R in
  let distance := (dx ^ 2 + dy ^ 2)%R in
  match binding with
  | None => Raise (NameError "CHISEL_RADIUS")
  | Some radius =>
      if Rltb radius distance then Ok (0, 0)%R
      else
        let distance := if Req_bool distance 0 then 1e-4%R else distance in
        power ← py_div (Rmax (CHISEL_POWER * touch_velocity) MIN_POWER)
                       distance;
        Ok (power * dx, power * dy)%R
  end.

(** [poke_power] as the module has it. *)
Definition poke_power (tx ty touch_velocity pebble_x pebble_y : R)
  : result (R * R) :=
  poke_power_in CHISEL_RADIUS tx ty touch_velocity pebble_x pebble_y.

(** ** The pixel buffer *)

Definition shape (image : Image) : Z * Z :=
  (Z.of_nat (length image), Z.of_nat (length (hd [] image))).

Definition texel_at (image : Image) (i j : nat) : option Texel :=
  image !! i ≫= (.!! j).

(** The four channels of a texel, in array order. *)
Definition channels (t : Texel) : list Z := [red t; green t; blue t; alpha t].

(** The bounds of a Python slice [start:stop] on an axis of length [n]: a
    negative bound counts from the end, and both bounds are clipped to the
    axis. *)
Definition slice_clip (i n : Z) : Z :=
  if (i <? 0)%Z then Z.max (i + n) 0 else Z.min i n.

Definition in_slice (start stop n k : Z) : bool :=
  (slice_clip start n <=? k)%Z && (k <? slice_clip stop n)%Z.

(** Membership of [image[i][j]] in
    [image[y - R:y + R + 1, x - R:x + R + 1]]. *)
Definition in_window (h w y x : Z) (i j : nat) : bool :=
  in_slice (y - RADIUS) (y + RADIUS + 1) h (Z.of_nat i)
  && in_slice (x - RADIUS) (x + RADIUS + 1) w (Z.of_nat j).

(** An assignment through the window, texel by texel. *)
Definition map_window (f : Texel → Texel) (y x : Z) (image : Image) : Image :=
  let '(h, w) := shape image in
  imap (λ i row, imap (λ j t, if in_window h w y x i j then f t else t) row)
       image.

(** Python's [int] on a float truncates towards zero. *)
Definition int (q : Q) : Z :=
  if Qle_bool 0 q then Qfloor q else (- Qfloor (- q))%Z.

(** [v * .8], stored back into a [uint8] array: the store truncates.  On
    each of the 256 byte values the float product truncates to the same
    integer as the exact product. *)
Definition darken (v : Z) : Z := int (inject_Z v * 0.8)%Q.

(** [view = image[..., :-1]]: the channels of a texel but the last. *)
Definition view (t : Texel) : list Z := removelast (channels t).

(** Line 177, [image[..., :-1] = view * .8]. *)
Definition darken_texel (t : Texel) : Texel :=
  match map darken (view t) with
  | [r; g; b] => {| red := r; green := g; blue := b; alpha := alpha t |}
  | _ => t
  end.

(** Line 178, [view[:, :, :-1].sum(axis=2) < 100]: [view] aliases the
    buffer, so this reads the darkened channels. *)
Definition mask (t : Texel) : bool :=
  (foldr Z.add 0 (removelast (view t)) <? 100)%Z.

(** Line 179, [image[..., -1][mask] = 0]. *)
Definition erase (t : Texel) : Texel :=
  if mask t
  then {| red := red t; green := green t; blue := blue t; alpha := 0 |}
  else t.

(** ** Chisel.poke (lines 164-182) *)

Record Touch : Type := mkTouch { spos : Q * Q; dsx : Q; dsy : Q }.

Definition set_image (image' : Image) (w : World) : World :=
  {| image := image'; pebbles := pebbles w; width := width w;
     height := height w; _tool := _tool w; heap := heap w |}.

(** The mapped position of lines 165-166. *)
Definition mapped (touch : Touch) : Q * Q :=
  let '(tx, ty) := spos touch in
  (1.333 * (tx - 0.125), 1.333 * (ty - 0.1))%Q.

Definition in_unit_square (p : Q * Q) : bool :=
  let '(x, y) := p in
  (Qle_bool 0 x && Qle_bool x 1) && (Qle_bool 0 y && Qle_bool y 1).

(** The texture upload and the canvas update of lines 181-182 are calls to
    the renderer and leave the state below as it is. *)
Definition poke (touch : Touch) (self : World) : World :=
  let '(x, y) := mapped touch in
  if negb (in_unit_square (x, y)) then self
  else
    let '(h, w) := shape (image self) in
    let x := int (x * inject_Z w)%Q in
    let y := int (y * inject_Z h)%Q in
    let tdx := dsx touch in
    let tdy := dsy touch in
    let touch_velocity := (tdx ^ 2 + tdy ^ 2)%Q in
    let image := map_window darken_texel y x (image self) in
    let image := map_window erase y x image in
    set_image image self.

(** Chisel.tool (lines 146-147). *)
Definition tool (i : Z) (w : World) : World :=
  {| image := image w; pebbles := pebbles w; width := width w;
     height := height w; _tool := i; heap := heap w |}.

(** The pixel index [(x, y)] of line 170. *)
Definition pixel_index (touch : Touch) (image : Image) : Z * Z :=
  let '(x, y) := mapped touch in
  let '(h, w) := shape image in
  (int (x * inject_Z w)%Q, int (y * inject_Z h)%Q).

(** ** Events

    [on_touch_down] and [on_touch_move] both poke (the former also plays a
    sound); the Clock ticks the pebbles. *)

Inductive event : Type :=
  | Tick (self : loc) (dt : R)
  | TouchDown (touch : Touch)
  | TouchMove (touch : Touch).

Definition handle (e : event) (w : World) : result World :=
  match e with
  | Tick self dt => tick self dt w
  | TouchDown touch | TouchMove touch => Ok (poke touch w)
  end.

Fixpoint run (es : list event) (w : World) : result World :=
  match es with
  | [] => Ok w
  | e :: es => w' ← handle e w; run es w'
  end.

Fixpoint pokes (touches : list Touch) (w : World) : World :=
  match touches with
  | [] => w
  | touch :: touches => pokes touches (poke touch w)
  end.

(** ** Well-formed buffers: rectangular, with channels that are bytes *)

Definition byte (v : Z) : Prop := (0 ≤ v ≤ 255)%Z.

Definition wf_texel (t : Texel) : Prop :=
  byte (red t) ∧ byte (green t) ∧ byte (blue t) ∧ byte (alpha t).

Definition wf_image (image : Image) : Prop :=
  Forall (λ row, length row = length (hd [] image) ∧ Forall wf_texel row) image.

(** ** Predicates used in the statements *)

(** A mapped position inside the closed unit square. *)
Definition inside (touch : Touch) : Prop :=
  ((0 <= (mapped touch).1 <= 1)%Q) ∧ ((0 <= (mapped touch).2 <= 1)%Q).

(** The composition of lines 177-179 on one texel of the window. *)
Definition erode (t : Texel) : Texel := erase (darken_texel t).

(** A cancelled, deregistered pebble: no event steps it, none registers it. *)
Definition landed_at (self : loc) (p : Pebble) (key : nat) (w : World) : Prop :=
  heap w !! self = Some p ∧ update p = false ∧ pebbles w !! key = None.

(** ** Concrete pebbles *)

Definition pixel_at (x y : R) : Pixel.t := Pixel.init x y 0 800 600 [1; 1; 1; 1]%R.

Definition pebble_at (key : nat) (x y vx vy : R) : Pebble :=
  {| index := key; pixel := pixel_at x y; velocity := (vx, vy); update := true |}.

(** A world with one pebble, object 0, registered under key 7. *)
Definition one_pebble (p : Pebble) : World :=
  {| image := []; pebbles := {[ 7%nat := 0%nat ]}; width := 800; height := 600;
     _tool := 0; heap := {[ 0%nat := p ]} |}.

(** ** Concrete buffers and touches *)

(** A 3 x 3 buffer filled with one texel. *)
Definition uniform (t : Texel) : Image := replicate 3 (replicate 3 t).

Definition chisel_with (image : Image) : World :=
  {| image := image; pebbles := ∅; width := 800; height := 600; _tool := 0;
     heap := ∅ |}.

Definition grey : Texel := mkTexel 200 200 200 255.
Definition dark : Texel := mkTexel 30 30 30 255.
Definition bright_blue : Texel := mkTexel 0 0 255 255.

(** Touches with a high speed; they map to the pixels (1, 1), (0, 1) and
    (3, 1) of a 3 x 3 buffer, and to x = -0.099975. *)
Definition touch_centre : Touch := mkTouch (0.5, 0.5)%Q 0.5%Q 0.5%Q.
Definition touch_left_edge : Touch := mkTouch (0.125, 0.5)%Q 0.5%Q 0.5%Q.
Definition touch_right_edge : Touch :=
  mkTouch ((1000 # 1333) + 0.125, 0.5)%Q 0.5%Q 0.5%Q.
Definition touch_outside : Touch := mkTouch (0.05, 0.5)%Q 0.5%Q 0.5%Q.

(** ** Pebble.__init__ (lines 55-60)

    A new object, at an identity the heap does not hold yet, with its Clock
    event scheduled.  The constructor does not write [chisel.pebbles]. *)
Definition Pebble_init (index0 : nat) (pixel0 : Pixel.t) (velocity0 : R * R)
    (w : World) : loc * World :=
  let self := fresh (dom (heap w)) in
  (self,
   store self
     {| index := index0; pixel := pixel0; velocity := velocity0;
        update := true |} w).

(** ** Predicates and measures of the further properties *)

(** Every pebble of the heap moves at [MAX_VELOCITY] at most. *)
Definition bounded (w : World) : Prop :=
  ∀ (l : loc) (p : Pebble),
    heap w !! l = Some p → (norm (velocity p) <= MAX_VELOCITY)%R.

(** The touches of a run of events, in order. *)
Fixpoint touches_of (es : list event) : list Touch :=
  match es with
  | [] => []
  | Tick _ _ :: es => touches_of es
  | TouchDown touch :: es | TouchMove touch :: es => touch :: touches_of es
  end.

(** A world with a grey buffer and one falling pebble, object 0, that is
    not registered in [chisel.pebbles]. *)
Definition busy : World :=
  store 0%nat (pebble_at 7 0.5 0.5 0 (-0.2)) (chisel_with (uniform grey)).

(** A buffer rewritten texel by texel, by row and column. *)
Definition grid_map (f : nat → nat → Texel → Texel) (image : Image) : Image :=
  imap (λ i row, imap (f i) row) image.

(** Whether a poke reaches the texel [(i, j)] of a buffer: the guard of line
    167 passes and the texel is in the slice of lines 176-179. *)
Definition hits (image : Image) (i j : nat) (touch : Touch) : bool :=
  in_unit_square (mapped touch)
  && in_window (shape image).1 (shape image).2
       (pixel_index touch image).2 (pixel_index touch image).1 i j.

Fixpoint hit_count (image : Image) (i j : nat) (touches : list Touch) : nat :=
  match touches with
  | [] => 0
  | touch :: touches =>
      (if hits image i j touch then 1 else 0) + hit_count image i j touches
  end.

(** ** Chisel.resize (lines 140-144)

    The geometry of the canvas, from the position and the size of the
    widget ([self.width] and [self.height] are the components of
    [self.size]).  These floats are only multiplied and divided by
    constants; they are rationals, like the floats of [poke]. *)

Definition IMAGE_SCALE : Q := 0.75.

Record Canvas : Type := mkCanvas {
  background_pos : Q * Q;
  background_size : Q * Q;
  rect_size : Q * Q;
  rect_pos : Q * Q
}.

Definition resize (pos size : Q * Q) : Canvas :=
  let '(width, height) := size in
  {| background_pos := pos;
     background_size := size;
     rect_size := (IMAGE_SCALE * width, IMAGE_SCALE * height)%Q;
     rect_pos := (width * (1 - IMAGE_SCALE) / 2, height / 10)%Q |}.

(** * Properties *)

(** ** Comparisons and the norm *)

Lemma Rltb_true (a b : R) : Rltb a b = true ↔ (a < b)%R.
Proof. unfold Rltb. destruct (Rlt_dec a b); split; (done || congruence). Qed.

Lemma Rltb_false (a b : R) : Rltb a b = false ↔ (b <= a)%R.
Proof.
  unfold Rltb. destruct (Rlt_dec a b); split; try done; intros; lra.
Qed.

Lemma Req_bool_true (a b : R) : Req_bool a b = true ↔ a = b.
Proof. unfold Req_bool. destruct (Req_dec_T a b); split; (done || congruence). Qed.

Lemma Req_bool_false (a b : R) : Req_bool a b = false ↔ a ≠ b.
Proof. unfold Req_bool. destruct (Req_dec_T a b); split; (done || congruence). Qed.

Lemma py_div_ok (a b : R) : b ≠ 0%R → py_div a b = Ok (a / b)%R.
Proof. intros Hb. unfold py_div. by rewrite (proj2 (Req_bool_false b 0) Hb). Qed.

Lemma sum_squares_nonneg (x y : R) : (0 <= x ^ 2 + y ^ 2)%R.
Proof. nra. Qed.

Lemma norm_nonneg (v : R * R) : (0 <= norm v)%R.
Proof. apply sqrt_pos. Qed.

Lemma norm_eq (v : R * R) (m : R) :
  (0 <= m)%R → (fst v ^ 2 + snd v ^ 2 = m * m)%R → norm v = m.
Proof.
  intros Hm Hsq. unfold norm. apply sqrt_lem_1; try done.
  apply sum_squares_nonneg.
Qed.

Lemma norm_sqr (v : R * R) : (norm v * norm v = fst v ^ 2 + snd v ^ 2)%R.
Proof. unfold norm. apply sqrt_sqrt, sum_squares_nonneg. Qed.

Lemma norm_le (v : R * R) (m : R) :
  (0 <= m)%R → (norm v <= m)%R ↔ (fst v ^ 2 + snd v ^ 2 <= m * m)%R.
Proof.
  intros Hm. pose proof (norm_nonneg v) as Hn. pose proof (norm_sqr v) as Hs.
  split; intros H; nra.
Qed.

Lemma norm_scale (k : R) (v : R * R) :
  (0 <= k)%R → norm (fst v * k, snd v * k)%R = (k * norm v)%R.
Proof.
  intros Hk. apply norm_eq.
  - pose proof (norm_nonneg v). nra.
  - simpl. pose proof (norm_sqr v) as Hs. nra.
Qed.

(** ** The velocity gate *)

(** C3.  Below [DISLODGE_VELOCITY] the gate answers [False]; above
    [MAX_VELOCITY] it answers the velocity scaled by the positive factor
    [MAX_VELOCITY / magnitude] (same direction), whose norm is exactly
    [MAX_VELOCITY]; in between it answers the velocity unchanged.  Over the
    reals the gate never raises. *)
Theorem is_dislodged_gate (v : R * R) :
  ((norm v < DISLODGE_VELOCITY)%R → is_dislodged v = Ok None)
  ∧ ((MAX_VELOCITY < norm v)%R →
     ∃ k : R, (0 < k)%R ∧ k = (MAX_VELOCITY / norm v)%R
       ∧ is_dislodged v = Ok (Some (fst v * k, snd v * k)%R)
       ∧ norm (fst v * k, snd v * k)%R = MAX_VELOCITY)
  ∧ ((DISLODGE_VELOCITY <= norm v)%R → (norm v <= MAX_VELOCITY)%R →
     is_dislodged v = Ok (Some v)).
Proof.
  destruct v as [x y]. unfold is_dislodged.
  change (sqrt (x ^ 2 + y ^ 2)) with (norm (x, y)).
  set (m := norm (x, y)). split; [|split].
  - intros Hlt. by rewrite (proj2 (Rltb_true m DISLODGE_VELOCITY) Hlt).
  - intros Hgt. unfold MAX_VELOCITY, DISLODGE_VELOCITY in *.
    assert (Hk : (0 < 0.2 / m)%R) by (apply Rdiv_lt_0_compat; lra).
    exists (0.2 / m)%R. split; [done|]. split; [done|]. split.
    + rewrite (proj2 (Rltb_false m 1e-3)) by lra.
      rewrite (proj2 (Rltb_true 0.2 m)) by lra.
      rewrite py_div_ok by lra. done.
    + change (norm (fst (x, y) * (0.2 / m), snd (x, y) * (0.2 / m))%R = 0.2%R).
      rewrite norm_scale by lra. fold m. field. lra.
  - intros Hge Hle.
    rewrite (proj2 (Rltb_false m DISLODGE_VELOCITY)) by done.
    by rewrite (proj2 (Rltb_false MAX_VELOCITY m)) by done.
Qed.

Lemma norm_0_0 : norm (0, 0)%R = 0%R.
Proof. apply norm_eq; simpl; lra. Qed.

Lemma norm_3_4 : norm (3, 4)%R = 5%R.
Proof. apply norm_eq; simpl; lra. Qed.

Lemma norm_01_0 : norm (0.1, 0)%R = 0.1%R.
Proof. apply norm_eq; simpl; lra. Qed.

Lemma is_dislodged_gate_witness :
  is_dislodged (0, 0)%R = Ok None
  ∧ (∃ k : R, (0 < k)%R ∧ k = (MAX_VELOCITY / norm (3, 4))%R
       ∧ is_dislodged (3, 4)%R = Ok (Some (3 * k, 4 * k)%R)
       ∧ norm (3 * k, 4 * k)%R = MAX_VELOCITY)
  ∧ is_dislodged (0.1, 0)%R = Ok (Some (0.1, 0)%R).
Proof.
  split; [|split].
  - apply (proj1 (is_dislodged_gate (0, 0)%R)).
    rewrite norm_0_0. unfold DISLODGE_VELOCITY. lra.
  - apply (proj1 (proj2 (is_dislodged_gate (3, 4)%R))).
    rewrite norm_3_4. unfold MAX_VELOCITY. lra.
  - apply (proj2 (proj2 (is_dislodged_gate (0.1, 0)%R)));
      rewrite norm_01_0; unfold DISLODGE_VELOCITY, MAX_VELOCITY; lra.
Defined.

(** ** Pebble.step *)

Lemma advance_eq (p : Pebble) (cw ch : R) :
  let x := Pixel.x (pixel p) in
  let y := Pixel.y (pixel p) in
  let vx := (fst (velocity p) * FRICTION)%R in
  let vy := (snd (velocity p) * FRICTION - GRAVITY)%R in
  let vx' := if negb (Rltb 0 x && Rltb x 1) then (vx * -1)%R else vx in
  advance p cw ch =
    {| index := index p;
       pixel := Pixel.rescale
                  (Pixel.set_xy (pixel p) (x + vx')%R (Rmax 0 (y + vy))) cw ch;
       velocity := (vx', vy);
       update := update p |}.
Proof. unfold advance. by destruct (velocity p). Qed.

Lemma advance_index (p : Pebble) (cw ch : R) : index (advance p cw ch) = index p.
Proof. by rewrite advance_eq. Qed.

Lemma advance_update (p : Pebble) (cw ch : R) :
  update (advance p cw ch) = update p.
Proof. by rewrite advance_eq. Qed.

Lemma advance_y (p : Pebble) (cw ch : R) :
  Pixel.y (pixel (advance p cw ch)) =
  Rmax 0 (Pixel.y (pixel p) + (snd (velocity p) * FRICTION - GRAVITY)).
Proof. by rewrite advance_eq. Qed.

Lemma advance_vx_inside (p : Pebble) (cw ch : R) :
  (0 < Pixel.x (pixel p) < 1)%R →
  fst (velocity (advance p cw ch)) = (fst (velocity p) * FRICTION)%R.
Proof.
  intros [H0 H1]. rewrite advance_eq. simpl.
  by rewrite (proj2 (Rltb_true _ _) H0), (proj2 (Rltb_true _ _) H1).
Qed.

Lemma advance_vx_outside (p : Pebble) (cw ch : R) :
  ¬ (0 < Pixel.x (pixel p) < 1)%R →
  fst (velocity (advance p cw ch)) = (- (fst (velocity p) * FRICTION))%R.
Proof.
  intros Hout. rewrite advance_eq. simpl.
  destruct (Rltb 0 (Pixel.x (pixel p))) eqn:H0;
    destruct (Rltb (Pixel.x (pixel p)) 1) eqn:H1; simpl; try lra.
  apply Rltb_true in H0, H1. lra.
Qed.

Lemma advance_norm (p : Pebble) (cw ch : R) :
  (norm (velocity p) <= MAX_VELOCITY)%R →
  (norm (velocity (advance p cw ch)) <= MAX_VELOCITY)%R.
Proof.
  unfold MAX_VELOCITY. intros Hn.
  apply norm_le in Hn; [|lra]. apply norm_le; [lra|].
  rewrite advance_eq. simpl. unfold FRICTION, GRAVITY.
  destruct (velocity p) as [vx vy]. simpl in *.
  destruct (negb _); nra.
Qed.

(** What a step does to the world when the pebble is registered. *)
Lemma step_ok (w : World) (self : loc) (dt : R) (p : Pebble) :
  heap w !! self = Some p →
  is_Some (pebbles w !! index p) →
  let q := advance p (width w) (height w) in
  let landed := Req_bool (Pixel.y (pixel q)) 0 in
  ∃ w' : World,
    step self dt w = Ok w'
    ∧ heap w' = <[self := if landed then cancel q else q]> (heap w)
    ∧ pebbles w' = (if landed then delete (index p) (pebbles w) else pebbles w)
    ∧ image w' = image w.
Proof.
  intros Hp [l Hl] q landed. unfold step. rewrite Hp. fold q. fold landed.
  destruct landed.
  - unfold del_pebble. simpl. unfold q. rewrite advance_index, Hl.
    eexists. by repeat split.
  - eexists. by repeat split.
Qed.

(** An unregistered pebble that lands makes [del] raise. *)
Lemma step_unregistered (w : World) (self : loc) (dt : R) (p : Pebble) :
  heap w !! self = Some p →
  pebbles w !! index p = None →
  Pixel.y (pixel (advance p (width w) (height w))) = 0%R →
  step self dt w = Raise (KeyError (index p)).
Proof.
  intros Hp Hl Hy. unfold step. rewrite Hp. cbv zeta.
  rewrite (proj2 (Req_bool_true _ _) Hy). unfold del_pebble. simpl.
  by rewrite advance_index, Hl.
Qed.

(** Any step leaves the other objects of the heap alone, and never adds a
    key to [chisel.pebbles]. *)
Lemma step_frame (w w' : World) (l : loc) (dt : R) :
  step l dt w = Ok w' →
  (∀ l', l' ≠ l → heap w' !! l' = heap w !! l')
  ∧ (∀ k, pebbles w !! k = None → pebbles w' !! k = None).
Proof.
  unfold step. destruct (heap w !! l) as [p|] eqn:Hp.
  - cbv zeta. destruct (Req_bool _ 0).
    + unfold del_pebble. simpl. destruct (pebbles w !! _) eqn:Hk; [|done].
      intros [= <-]. simpl. split.
      * intros l' Hne. by rewrite lookup_insert_ne.
      * intros k Hnone. rewrite lookup_delete. by case_decide.
    + intros [= <-]. simpl. split; [|done].
      intros l' Hne. by rewrite lookup_insert_ne.
  - by intros [= <-].
Qed.

(** ** What poke leaves alone *)

Lemma poke_pebbles (touch : Touch) (w : World) :
  pebbles (poke touch w) = pebbles w.
Proof.
  unfold poke. destruct (mapped touch) as [x y].
  destruct (negb _); [done|]. by destruct (shape (image w)).
Qed.

Lemma poke_heap (touch : Touch) (w : World) : heap (poke touch w) = heap w.
Proof.
  unfold poke. destruct (mapped touch) as [x y].
  destruct (negb _); [done|]. by destruct (shape (image w)).
Qed.

(** ** Landed pebbles stay landed *)

Lemma handle_landed (self : loc) (p : Pebble) (key : nat) (e : event)
    (w w' : World) :
  landed_at self p key w → handle e w = Ok w' → landed_at self p key w'.
Proof.
  intros (Hp & Hu & Hk) He. destruct e as [l dt|touch|touch]; simpl in He.
  - unfold tick in He. destruct (heap w !! l) as [q|] eqn:Hq.
    + destruct (update q) eqn:Huq.
      * assert (self ≠ l) as Hne by (intros ->; congruence).
        apply step_frame in He as [Hheap Hpeb].
        split; [by rewrite Hheap|]. split; [done|]. by apply Hpeb.
      * by injection He as <-.
    + by injection He as <-.
  - injection He as <-. unfold landed_at. by rewrite poke_heap, poke_pebbles.
  - injection He as <-. unfold landed_at. by rewrite poke_heap, poke_pebbles.
Qed.

Lemma run_landed (self : loc) (p : Pebble) (key : nat) (es : list event) :
  ∀ w w' : World,
    landed_at self p key w → run es w = Ok w' → landed_at self p key w'.
Proof.
  induction es as [|e es IH]; intros w w' Hl Hrun; simpl in Hrun.
  - by injection Hrun as <-.
  - destruct (handle e w) as [w1|err] eqn:He; [|done].
    eapply IH; [|exact Hrun]. by eapply handle_landed.
Qed.

(** C9, as the code has it.  A pebble that [chisel.pebbles] holds under its
    index, with its Clock event scheduled, steps without error.  The step
    replaces the object by the moved one and touches nothing else of the
    heap or of the buffer.  The new height is
    [max(0, y + (vy * FRICTION - GRAVITY))], never negative, and it is 0
    exactly when [y + (vy * FRICTION - GRAVITY) <= 0].  While the new height
    is not 0 the collection is as it was and the pebble stays scheduled.
    When it is 0 the pebble is, within that step, cancelled, and the
    collection loses its key and no other; from then on a tick of its event
    does nothing, and no run of events changes the object or registers its
    key again. *)
Theorem step_lands_exactly_at_floor (w : World) (self : loc) (dt : R)
    (p : Pebble) :
  heap w !! self = Some p →
  pebbles w !! index p = Some self →
  update p = true →
  ∃ (w' : World) (p' : Pebble),
    step self dt w = Ok w'
    ∧ heap w' = <[self := p']> (heap w)
    ∧ heap w' !! self = Some p'
    ∧ image w' = image w
    ∧ index p' = index p
    ∧ snd (velocity p') = (snd (velocity p) * FRICTION - GRAVITY)%R
    ∧ Pixel.y (pixel p')
      = Rmax 0 (Pixel.y (pixel p) + (snd (velocity p) * FRICTION - GRAVITY))
    ∧ (0 <= Pixel.y (pixel p'))%R
    ∧ (Pixel.y (pixel p') = 0%R
       ↔ (Pixel.y (pixel p) + (snd (velocity p) * FRICTION - GRAVITY) <= 0)%R)
    ∧ (Pixel.y (pixel p') ≠ 0%R →
       pebbles w' = pebbles w
       ∧ pebbles w' !! index p = Some self ∧ update p' = true)
    ∧ (Pixel.y (pixel p') = 0%R →
       pebbles w' = delete (index p) (pebbles w)
       ∧ pebbles w' !! index p = None ∧ update p' = false
       ∧ (∀ dt' : R, tick self dt' w' = Ok w')
       ∧ (∀ (es : list event) (w'' : World), run es w' = Ok w'' →
          heap w'' !! self = Some p' ∧ pebbles w'' !! index p = None)).
Proof.
  intros Hp Hreg Hup.
  destruct (step_ok w self dt p Hp) as (w' & Hstep & Hheap & Hpeb & Himg);
    [done|].
  set (q := advance p (width w) (height w)) in *.
  assert (Hqy : Pixel.y (pixel q)
                = Rmax 0 (Pixel.y (pixel p)
                          + (snd (velocity p) * FRICTION - GRAVITY))).
  { unfold q. by rewrite advance_y. }
  assert (Hqv : snd (velocity q)
                = (snd (velocity p) * FRICTION - GRAVITY)%R).
  { unfold q. by rewrite advance_eq. }
  assert (Hqi : index q = index p) by (unfold q; by rewrite advance_index).
  assert (Hq0 : (0 <= Pixel.y (pixel q))%R).
  { rewrite Hqy. apply Rmax_l. }
  assert (Hiff : Pixel.y (pixel q) = 0%R
                 ↔ (Pixel.y (pixel p)
                    + (snd (velocity p) * FRICTION - GRAVITY) <= 0)%R).
  { rewrite Hqy. unfold Rmax. destruct (Rle_dec _ _); lra. }
  destruct (Req_bool (Pixel.y (pixel q)) 0) eqn:Hland.
  - apply Req_bool_true in Hland.
    exists w', (cancel q). split; [done|]. split; [done|].
    assert (Hl : landed_at self (cancel q) (index p) w').
    { split; [by rewrite Hheap, lookup_insert_eq|]. split; [done|].
      by rewrite Hpeb, lookup_delete_eq. }
    split; [apply Hl|]. split; [done|]. split; [done|]. split; [done|].
    split; [done|]. split; [done|]. split; [done|]. split; [done|].
    intros _. split; [done|]. split; [apply Hl|]. split; [done|]. split.
    + intros dt'. unfold tick. by rewrite (proj1 Hl).
    + intros es w'' Hrun.
      destruct (run_landed self (cancel q) (index p) es w' w'' Hl Hrun)
        as (? & _ & ?). done.
  - apply Req_bool_false in Hland.
    exists w', q. split; [done|]. split; [done|].
    split; [by rewrite Hheap, lookup_insert_eq|]. split; [done|].
    split; [done|]. split; [done|]. split; [done|]. split; [done|].
    split; [done|]. split.
    + intros _. split; [done|]. rewrite Hpeb. split; [done|].
      unfold q. by rewrite advance_update.
    + done.
Qed.

Lemma step_lands_exactly_at_floor_witness :
  ∃ (w' : World) (p' : Pebble),
    step 0%nat (1 / 30)%R (one_pebble (pebble_at 7 0.5 0.01 0 0)) = Ok w'
    ∧ heap w' = <[0%nat := p']> {[ 0%nat := pebble_at 7 0.5 0.01 0 0 ]}
    ∧ heap w' !! 0%nat = Some p'
    ∧ image w' = []
    ∧ index p' = 7%nat
    ∧ snd (velocity p') = (0 * FRICTION - GRAVITY)%R
    ∧ Pixel.y (pixel p') = Rmax 0 (0.01 + (0 * FRICTION - GRAVITY))
    ∧ (0 <= Pixel.y (pixel p'))%R
    ∧ (Pixel.y (pixel p') = 0%R ↔ (0.01 + (0 * FRICTION - GRAVITY) <= 0)%R)
    ∧ (Pixel.y (pixel p') ≠ 0%R →
       pebbles w' = {[ 7%nat := 0%nat ]}
       ∧ pebbles w' !! 7%nat = Some 0%nat ∧ update p' = true)
    ∧ (Pixel.y (pixel p') = 0%R →
       pebbles w' = delete 7%nat {[ 7%nat := 0%nat ]}
       ∧ pebbles w' !! 7%nat = None ∧ update p' = false
       ∧ (∀ dt' : R, tick 0%nat dt' w' = Ok w')
       ∧ (∀ (es : list event) (w'' : World), run es w' = Ok w'' →
          heap w'' !! 0%nat = Some p' ∧ pebbles w'' !! 7%nat = None)).
Proof.
  apply (step_lands_exactly_at_floor (one_pebble (pebble_at 7 0.5 0.01 0 0))
           0%nat (1 / 30)%R (pebble_at 7 0.5 0.01 0 0)).
  - reflexivity.
  - reflexivity.
  - reflexivity.
Defined.

(** C9, as the claim has it, fails for a pebble that [chisel.pebbles] does
    not hold.  The constructor schedules the Clock event and writes no key
    (lines 55-60), and no line of the module writes one.  A pebble made so at
    height 0.01 reaches the floor at its first tick, [max(0, 0.01 - 0.02)]
    being 0; line 80 then deletes a key that is not there, and the tick
    raises [KeyError] where the claim has the pebble leave the collection
    in silence. *)
Lemma landing_tick_of_new_pebble_raises :
  Pebble_init 7 (pixel_at 0.5 0.01) (0, 0)%R (chisel_with [])
  = (0%nat, store 0%nat (pebble_at 7 0.5 0.01 0 0) (chisel_with []))
  ∧ pebbles (store 0%nat (pebble_at 7 0.5 0.01 0 0) (chisel_with [])) = ∅
  ∧ Rmax 0 (0.01 + (0 * FRICTION - GRAVITY)) = 0%R
  ∧ step 0%nat (1 / 30)%R
      (store 0%nat (pebble_at 7 0.5 0.01 0 0) (chisel_with []))
    = Raise (KeyError 7)
  ∧ tick 0%nat (1 / 30)%R
      (store 0%nat (pebble_at 7 0.5 0.01 0 0) (chisel_with []))
    = Raise (KeyError 7).
Proof.
  set (p := pebble_at 7 0.5 0.01 0 0).
  set (w := store 0%nat p (chisel_with [])).
  assert (Hy : Rmax 0 (0.01 + (0 * FRICTION - GRAVITY)) = 0%R).
  { unfold FRICTION, GRAVITY. apply Rmax_left. lra. }
  assert (Hstep : step 0%nat (1 / 30)%R w = Raise (KeyError 7)).
  { apply (step_unregistered w 0%nat (1 / 30)%R p).
    - reflexivity.
    - reflexivity.
    - rewrite advance_y. exact Hy. }
  split; [reflexivity|]. split; [reflexivity|]. split; [exact Hy|].
  split; [exact Hstep|].
  unfold tick. change (heap w !! 0%nat) with (Some p). exact Hstep.
Qed.

(** A pebble just above the floor lands: its height becomes 0, its Clock
    event is cancelled and [chisel.pebbles] loses its key. *)
Lemma pebble_lands :
  ∃ (w' : World) (p' : Pebble),
    step 0%nat (1 / 30)%R (one_pebble (pebble_at 7 0.5 0.01 0 0)) = Ok w'
    ∧ heap w' !! 0%nat = Some p'
    ∧ Pixel.y (pixel p') = 0%R
    ∧ update p' = false
    ∧ pebbles w' !! 7%nat = None.
Proof.
  set (p := pebble_at 7 0.5 0.01 0 0).
  destruct (step_ok (one_pebble p) 0%nat (1 / 30)%R p)
    as (w' & Hstep & Hheap & Hpeb & _); [done|by exists 0%nat|].
  assert (Hy : Pixel.y (pixel (advance p (width (one_pebble p))
                                        (height (one_pebble p)))) = 0%R).
  { rewrite advance_y. simpl. unfold FRICTION, GRAVITY.
    apply Rmax_left. lra. }
  rewrite (proj2 (Req_bool_true _ _) Hy) in Hheap, Hpeb.
  exists w'. eexists. split; [done|].
  split; [by rewrite Hheap, lookup_insert_eq|]. split; [exact Hy|].
  split; [done|]. by rewrite Hpeb, lookup_delete_eq.
Qed.

(** A pebble high above the floor keeps falling: it stays registered and
    scheduled. *)
Lemma pebble_falls :
  ∃ (w' : World) (p' : Pebble),
    step 0%nat (1 / 30)%R (one_pebble (pebble_at 7 0.5 0.5 0 0)) = Ok w'
    ∧ heap w' !! 0%nat = Some p'
    ∧ Pixel.y (pixel p') = 0.48%R
    ∧ update p' = true
    ∧ pebbles w' !! 7%nat = Some 0%nat.
Proof.
  set (p := pebble_at 7 0.5 0.5 0 0).
  destruct (step_ok (one_pebble p) 0%nat (1 / 30)%R p)
    as (w' & Hstep & Hheap & Hpeb & _); [done|by exists 0%nat|].
  assert (Hy : Pixel.y (pixel (advance p (width (one_pebble p))
                                        (height (one_pebble p)))) = 0.48%R).
  { rewrite advance_y. simpl. unfold FRICTION, GRAVITY.
    rewrite Rmax_right; lra. }
  rewrite (proj2 (Req_bool_false _ 0)) in Hheap, Hpeb by (rewrite Hy; lra).
  exists w'. eexists. split; [done|].
  split; [by rewrite Hheap, lookup_insert_eq|]. split; [exact Hy|].
  split; [by rewrite advance_update|]. by rewrite Hpeb.
Qed.

Lemma step_pebble (w : World) (self : loc) (dt : R) (p : Pebble) :
  heap w !! self = Some p →
  is_Some (pebbles w !! index p) →
  ∃ (w' : World) (p' : Pebble),
    step self dt w = Ok w'
    ∧ heap w' !! self = Some p'
    ∧ velocity p' = velocity (advance p (width w) (height w))
    ∧ pixel p' = pixel (advance p (width w) (height w)).
Proof.
  intros Hp Hreg.
  destruct (step_ok w self dt p Hp Hreg) as (w' & Hstep & Hheap & _).
  exists w'. eexists. split; [done|].
  split; [by rewrite Hheap, lookup_insert_eq|].
  by destruct (Req_bool _ 0).
Qed.

(** C4, as the code has it.  After friction, the horizontal velocity is
    negated exactly when the position the step starts from is not strictly
    between 0 and 1; the position then advances by the resulting velocity. *)
Theorem step_bounces_on_current_x (w : World) (self : loc) (dt : R)
    (p : Pebble) :
  heap w !! self = Some p →
  is_Some (pebbles w !! index p) →
  ∃ (w' : World) (p' : Pebble),
    step self dt w = Ok w'
    ∧ heap w' !! self = Some p'
    ∧ ((0 < Pixel.x (pixel p) < 1)%R →
       fst (velocity p') = (fst (velocity p) * FRICTION)%R)
    ∧ (¬ (0 < Pixel.x (pixel p) < 1)%R →
       fst (velocity p') = (- (fst (velocity p) * FRICTION))%R)
    ∧ Pixel.x (pixel p') = (Pixel.x (pixel p) + fst (velocity p'))%R.
Proof.
  intros Hp Hreg.
  destruct (step_pebble w self dt p Hp Hreg) as (w' & p' & Hstep & Hp' & Hv & Hx).
  exists w', p'. split; [done|]. split; [done|]. rewrite Hv, Hx.
  split; [apply advance_vx_inside|]. split; [apply advance_vx_outside|].
  by rewrite advance_eq.
Qed.

Lemma step_bounces_on_current_x_witness :
  ∃ (w' : World) (p' : Pebble),
    step 0%nat (1 / 30)%R (one_pebble (pebble_at 7 1.008 0.48 0.018 (-0.02)))
      = Ok w'
    ∧ heap w' !! 0%nat = Some p'
    ∧ ((0 < 1.008 < 1)%R → fst (velocity p') = (0.018 * FRICTION)%R)
    ∧ (¬ (0 < 1.008 < 1)%R → fst (velocity p') = (- (0.018 * FRICTION))%R)
    ∧ Pixel.x (pixel p') = (1.008 + fst (velocity p'))%R.
Proof.
  apply (step_bounces_on_current_x
           (one_pebble (pebble_at 7 1.008 0.48 0.018 (-0.02))) 0%nat (1 / 30)%R
           (pebble_at 7 1.008 0.48 0.018 (-0.02))).
  - reflexivity.
  - exists 0%nat. reflexivity.
Defined.

(** C4, as the claim has it, fails: a pebble at x = 0.99 moving right at 0.02
    steps to x = 1.008, outside [0, 1], and its horizontal velocity is the
    positive 0.018: the sign is not flipped at that step. *)
Lemma step_no_bounce_at_099 :
  ∃ (w' : World) (p' : Pebble),
    step 0%nat (1 / 30)%R (one_pebble (pebble_at 7 0.99 0.5 0.02 0)) = Ok w'
    ∧ heap w' !! 0%nat = Some p'
    ∧ fst (velocity p') = 0.018%R
    ∧ fst (velocity p') ≠ (- (0.02 * FRICTION))%R
    ∧ Pixel.x (pixel p') = 1.008%R
    ∧ ¬ (0 <= Pixel.x (pixel p') <= 1)%R.
Proof.
  set (p := pebble_at 7 0.99 0.5 0.02 0).
  destruct (step_pebble (one_pebble p) 0%nat (1 / 30)%R p)
    as (w' & p' & Hstep & Hp' & Hv & Hx); [done|by exists 0%nat|].
  exists w', p'. split; [done|]. split; [done|].
  assert (Hvx : fst (velocity p') = 0.018%R).
  { rewrite Hv, advance_vx_inside; simpl; unfold FRICTION; lra. }
  assert (Hpx : Pixel.x (pixel p') = 1.008%R).
  { rewrite Hx, advance_eq. simpl.
    rewrite (proj2 (Rltb_true 0 0.99)), (proj2 (Rltb_true 0.99 1)) by lra.
    simpl. unfold FRICTION. lra. }
  split; [done|]. split; [rewrite Hvx; unfold FRICTION; lra|].
  split; [done|]. rewrite Hpx. lra.
Qed.

(** C10.  A step keeps the speed of a pebble within [MAX_VELOCITY]. *)
Theorem step_keeps_velocity_bound (w : World) (self : loc) (dt : R)
    (p : Pebble) :
  heap w !! self = Some p →
  is_Some (pebbles w !! index p) →
  (norm (velocity p) <= MAX_VELOCITY)%R →
  ∃ (w' : World) (p' : Pebble),
    step self dt w = Ok w'
    ∧ heap w' !! self = Some p'
    ∧ (norm (velocity p') <= MAX_VELOCITY)%R.
Proof.
  intros Hp Hreg Hn.
  destruct (step_pebble w self dt p Hp Hreg) as (w' & p' & Hstep & Hp' & Hv & _).
  exists w', p'. split; [done|]. split; [done|].
  rewrite Hv. by apply advance_norm.
Qed.

Lemma norm_terminal : norm (0, -0.2)%R = 0.2%R.
Proof. apply norm_eq; simpl; lra. Qed.

Lemma step_keeps_velocity_bound_witness :
  ∃ (w' : World) (p' : Pebble),
    step 0%nat (1 / 30)%R (one_pebble (pebble_at 7 0.5 0.5 0 (-0.2))) = Ok w'
    ∧ heap w' !! 0%nat = Some p'
    ∧ (norm (velocity p') <= MAX_VELOCITY)%R.
Proof.
  apply (step_keeps_velocity_bound
           (one_pebble (pebble_at 7 0.5 0.5 0 (-0.2))) 0%nat (1 / 30)%R
           (pebble_at 7 0.5 0.5 0 (-0.2))).
  - reflexivity.
  - exists 0%nat. reflexivity.
  - simpl. rewrite norm_terminal. unfold MAX_VELOCITY. lra.
Defined.

(** ** Chisel.poke_power

    First the function as the module has it; then, for the record, the body
    under a binding [Some radius] of the name, which the module does not
    provide. *)

(** C2 on the code.  [poke_power] returns for no input, neither (0, 0) nor a
    force: line 156 reads [CHISEL_RADIUS], which the module binds nowhere.
    The exception is [NameError] wherever the squares of line 154 are in the
    range of a float (beyond it [dx**2] is an [OverflowError], which the
    reals of the model do not have). *)
Theorem poke_power_raises_NameError (tx ty touch_velocity x y : R) :
  (∀ f : R * R, poke_power tx ty touch_velocity x y ≠ Ok f)
  ∧ ((Rabs (x - tx) <= 1e150)%R → (Rabs (y - ty) <= 1e150)%R →
     poke_power tx ty touch_velocity x y = Raise (NameError "CHISEL_RADIUS")).
Proof.
  assert (H : poke_power tx ty touch_velocity x y
              = Raise (NameError "CHISEL_RADIUS")).
  { unfold poke_power, CHISEL_RADIUS, poke_power_in. reflexivity. }
  split; [|done]. intros f. rewrite H. discriminate.
Qed.

Lemma poke_power_raises_NameError_witness :
  (∀ f : R * R, poke_power 0 0 1 0.5 0 ≠ Ok f)
  ∧ poke_power 0 0 1 0.5 0 = Raise (NameError "CHISEL_RADIUS").
Proof.
  destruct (poke_power_raises_NameError 0 0 1 0.5 0) as [Hnone Hname].
  split; [exact Hnone|].
  apply Hname; rewrite Rabs_right; lra.
Defined.

Lemma power_positive (touch_velocity : R) :
  (0 < Rmax (CHISEL_POWER * touch_velocity) MIN_POWER)%R.
Proof.
  eapply Rlt_le_trans; [|apply Rmax_r]. unfold MIN_POWER. lra.
Qed.

Lemma poke_power_outside (radius tx ty tv x y : R) :
  (radius < (x - tx) ^ 2 + (y - ty) ^ 2)%R →
  poke_power_in (Some radius) tx ty tv x y = Ok (0, 0)%R.
Proof.
  intros Hd. unfold poke_power_in. cbv beta iota zeta.
  by rewrite (proj2 (Rltb_true _ _) Hd).
Qed.

Lemma poke_power_inside (radius tx ty tv x y : R) :
  let d := ((x - tx) ^ 2 + (y - ty) ^ 2)%R in
  let d' := if Req_bool d 0 then 1e-4%R else d in
  let power := (Rmax (CHISEL_POWER * tv) MIN_POWER / d')%R in
  (d <= radius)%R →
  d' ≠ 0%R ∧ (0 < power)%R
  ∧ poke_power_in (Some radius) tx ty tv x y
    = Ok (power * (x - tx), power * (y - ty))%R.
Proof.
  intros d d' power Hd.
  assert (Hd0 : (0 <= d)%R) by apply sum_squares_nonneg.
  assert (Hd' : (0 < d')%R).
  { unfold d'. destruct (Req_bool d 0) eqn:E; [lra|].
    apply Req_bool_false in E. lra. }
  split; [lra|]. split.
  - apply Rdiv_lt_0_compat; [apply power_positive|done].
  - unfold poke_power_in. cbv beta iota zeta. fold d.
    rewrite (proj2 (Rltb_false _ _) Hd). fold d'.
    rewrite py_div_ok by lra. done.
Qed.

(** Away from the tip the force has magnitude [power / sqrt d]. *)
Lemma force_norm (P dx dy : R) :
  (0 < P)%R → (0 < dx ^ 2 + dy ^ 2)%R →
  norm (P / (dx ^ 2 + dy ^ 2) * dx, P / (dx ^ 2 + dy ^ 2) * dy)%R
  = (P / sqrt (dx ^ 2 + dy ^ 2))%R.
Proof.
  intros HP Hd. set (d := (dx ^ 2 + dy ^ 2)%R) in *.
  assert (Hs : (0 < sqrt d)%R) by by apply sqrt_lt_R0.
  assert (Hss : (sqrt d * sqrt d = d)%R) by (apply sqrt_sqrt; lra).
  apply norm_eq.
  - apply Rlt_le, Rdiv_lt_0_compat; done.
  - cbn [fst snd].
    transitivity ((P / d) ^ 2 * d)%R; [unfold d; ring|].
    clearbody d. revert Hs Hss. generalize (sqrt d). intros s Hs Hss.
    subst d. field. lra.
Qed.

(** Under a binding of the name.  Beyond the radius the force is (0, 0);
    within it the force is [power * (pixel - tip)] for the positive
    [power = max(CHISEL_POWER * speed, MIN_POWER) / d], with 1e-4 standing in
    for a squared distance [d] of 0, so that no division fails; and for a
    fixed speed and two pixels within the radius, neither one at the tip,
    the farther one receives the strictly smaller force. *)
Lemma poke_power_in_force (radius tx ty touch_velocity : R) :
  (∀ x y : R,
     let d := ((x - tx) ^ 2 + (y - ty) ^ 2)%R in
     ((radius < d)%R →
      poke_power_in (Some radius) tx ty touch_velocity x y = Ok (0, 0)%R)
     ∧ ((d <= radius)%R →
        ∃ power : R,
          (0 < power)%R
          ∧ power = (Rmax (CHISEL_POWER * touch_velocity) MIN_POWER
                     / (if Req_bool d 0 then 1e-4 else d))%R
          ∧ (if Req_bool d 0 then 1e-4%R else d) ≠ 0%R
          ∧ poke_power_in (Some radius) tx ty touch_velocity x y
            = Ok (power * (x - tx), power * (y - ty))%R)
     ∧ ∃ f : R * R, poke_power_in (Some radius) tx ty touch_velocity x y = Ok f)
  ∧ (∀ x1 y1 x2 y2 : R,
       let d1 := ((x1 - tx) ^ 2 + (y1 - ty) ^ 2)%R in
       let d2 := ((x2 - tx) ^ 2 + (y2 - ty) ^ 2)%R in
       (0 < d1)%R → (d1 < d2)%R → (d2 <= radius)%R →
       ∃ f1 f2 : R * R,
         poke_power_in (Some radius) tx ty touch_velocity x1 y1 = Ok f1
         ∧ poke_power_in (Some radius) tx ty touch_velocity x2 y2 = Ok f2
         ∧ (norm f2 < norm f1)%R).
Proof.
  split.
  - intros x y d. split; [apply poke_power_outside|]. split.
    + intros Hd.
      destruct (poke_power_inside radius tx ty touch_velocity x y Hd)
        as (Hne & Hpos & Heq).
      eexists. split; [exact Hpos|]. split; [reflexivity|]. by split.
    + destruct (Rlt_le_dec radius d) as [Hd|Hd].
      * eexists. by apply poke_power_outside.
      * destruct (poke_power_inside radius tx ty touch_velocity x y Hd)
          as (_ & _ & Heq).
        eexists. exact Heq.
  - intros x1 y1 x2 y2 d1 d2 H0 H12 H2.
    destruct (poke_power_inside radius tx ty touch_velocity x1 y1)
      as (_ & _ & Heq1); [fold d1; lra|].
    destruct (poke_power_inside radius tx ty touch_velocity x2 y2)
      as (_ & _ & Heq2); [done|].
    fold d1 in Heq1. fold d2 in Heq2.
    rewrite (proj2 (Req_bool_false d1 0)) in Heq1 by lra.
    rewrite (proj2 (Req_bool_false d2 0)) in Heq2 by lra.
    eexists. eexists. split; [exact Heq1|]. split; [exact Heq2|].
    pose proof (power_positive touch_velocity) as HP.
    unfold d1, d2. rewrite !force_norm by (done || (fold d1 d2; lra)).
    fold d1 d2.
    assert (Hs1 : (0 < sqrt d1)%R) by by apply sqrt_lt_R0.
    assert (Hs : (sqrt d1 < sqrt d2)%R) by (apply sqrt_lt_1; lra).
    apply Rmult_lt_compat_l; [done|].
    apply Rinv_lt_contravar; [|done]. apply Rmult_lt_0_compat; lra.
Qed.

Lemma poke_power_in_force_example :
  poke_power_in (Some 1%R) 0 0 1 2 0 = Ok (0, 0)%R
  ∧ (∃ power : R,
       (0 < power)%R
       ∧ poke_power_in (Some 1%R) 0 0 1 0.5 0 = Ok (power * (0.5 - 0), power * (0 - 0))%R)
  ∧ (∃ f1 f2 : R * R,
       poke_power_in (Some 1%R) 0 0 1 0.1 0 = Ok f1
       ∧ poke_power_in (Some 1%R) 0 0 1 0.5 0 = Ok f2
       ∧ (norm f2 < norm f1)%R).
Proof.
  destruct (poke_power_in_force 1 0 0 1) as [Hpoint Hmono].
  split; [|split].
  - apply (proj1 (Hpoint 2 0)%R). lra.
  - destruct (proj1 (proj2 (Hpoint 0.5 0)%R)) as (power & Hpos & _ & _ & Heq);
      [lra|].
    exists power. by split.
  - apply (Hmono 0.1 0 0.5 0)%R; lra.
Defined.

(** Under a binding, at the tip itself the force is (0, 0). *)
Lemma poke_power_at_tip (radius tx ty tv : R) :
  (0 <= radius)%R → poke_power_in (Some radius) tx ty tv tx ty = Ok (0, 0)%R.
Proof.
  intros Hr.
  destruct (poke_power_inside radius tx ty tv tx ty) as (_ & _ & ->); [lra|].
  do 2 f_equal; ring.
Qed.

(** Under a binding of the name the magnitude does not fall with the
    distance at the tip: for a fixed speed the force on the pixel at
    distance 0 is (0, 0), of magnitude 0, and the force on a pixel at
    distance 0.01, within the radius, has magnitude 10000. *)
Lemma poke_power_in_grows_from_the_tip :
  poke_power_in (Some 1%R) 0 0 1 0 0 = Ok (0, 0)%R
  ∧ poke_power_in (Some 1%R) 0 0 1 0.01 0 = Ok (10000, 0)%R
  ∧ ((0 - 0) ^ 2 + (0 - 0) ^ 2 < (0.01 - 0) ^ 2 + (0 - 0) ^ 2 <= 1)%R
  ∧ (norm (0, 0) < norm (10000, 0))%R.
Proof.
  split; [apply poke_power_at_tip; lra|]. split; [|split; [lra|]].
  - destruct (poke_power_inside 1 0 0 1 0.01 0) as (_ & _ & ->); [lra|].
    rewrite (proj2 (Req_bool_false _ 0)) by lra.
    rewrite Rmax_left by (unfold CHISEL_POWER, MIN_POWER; lra).
    unfold CHISEL_POWER. do 2 f_equal; lra.
  - rewrite norm_0_0. rewrite (norm_eq (10000, 0)%R 10000); simpl; lra.
Qed.

(** ** The pixel buffer under poke *)

(** The truncated product [v * .8] is the integer quotient [4 v / 5]. *)
Lemma darken_eq (v : Z) : (0 ≤ v)%Z → darken v = (4 * v / 5)%Z.
Proof.
  intros Hv. unfold darken, int, Qle_bool, Qfloor. simpl.
  change (Z.pos (1 * 10)) with 10%Z.
  destruct (Z.leb_spec (0 * 10) (v * 8 * 1)); [|lia].
  Z.div_mod_to_equations. lia.
Qed.

Lemma darken_byte (v : Z) : byte v → byte (darken v) ∧ (darken v ≤ v)%Z.
Proof.
  unfold byte. intros Hv. rewrite darken_eq by lia.
  Z.div_mod_to_equations. lia.
Qed.

Lemma darken_texel_eq (t : Texel) :
  darken_texel t =
  {| red := darken (red t); green := darken (green t);
     blue := darken (blue t); alpha := alpha t |}.
Proof. reflexivity. Qed.

(** The mask adds up the first two channels of the view only. *)
Lemma mask_eq (t : Texel) : mask t = (red t + (green t + 0) <? 100)%Z.
Proof. reflexivity. Qed.

Lemma texel_at_map_window (f : Texel → Texel) (y x : Z) (image : Image)
    (i j : nat) :
  texel_at (map_window f y x image) i j =
  (λ t, if in_window (shape image).1 (shape image).2 y x i j then f t else t)
    <$> texel_at image i j.
Proof.
  unfold texel_at, map_window, shape. cbv beta iota. cbn [fst snd].
  rewrite list_lookup_imap. destruct (image !! i) as [row|]; [|done].
  cbn [fmap option_fmap option_map mbind option_bind].
  by rewrite list_lookup_imap.
Qed.

Lemma shape_map_window (f : Texel → Texel) (y x : Z) (image : Image) :
  shape (map_window f y x image) = shape image.
Proof.
  unfold map_window, shape. cbv beta iota. rewrite length_imap. f_equal.
  destruct image as [|row rows]; [done|]. cbn [imap hd].
  by rewrite length_imap.
Qed.

Lemma in_unit_square_inside (touch : Touch) :
  in_unit_square (mapped touch) = true ↔ inside touch.
Proof.
  unfold in_unit_square, inside. destruct (mapped touch) as [x y]. simpl.
  rewrite !andb_true_iff, !Qle_bool_iff. tauto.
Qed.

Lemma poke_outside (touch : Touch) (w : World) :
  ¬ inside touch → poke touch w = w.
Proof.
  intros Hout. unfold poke.
  destruct (in_unit_square (mapped touch)) eqn:E.
  - by apply in_unit_square_inside in E.
  - destruct (mapped touch). by rewrite E.
Qed.

Lemma poke_inside (touch : Touch) (w : World) (i j : nat) :
  inside touch →
  let '(h, wd) := shape (image w) in
  let '(x, y) := pixel_index touch (image w) in
  shape (image (poke touch w)) = shape (image w)
  ∧ texel_at (image (poke touch w)) i j =
    (λ t, if in_window h wd y x i j then erode t else t)
      <$> texel_at (image w) i j.
Proof.
  intros Hin. apply in_unit_square_inside in Hin.
  unfold poke, pixel_index. destruct (mapped touch) as [qx qy].
  rewrite Hin. simpl negb. cbv iota.
  destruct (shape (image w)) as [h wd] eqn:Hshape. simpl.
  split.
  - by rewrite !shape_map_window.
  - rewrite !texel_at_map_window, shape_map_window, Hshape. simpl.
    destruct (texel_at (image w) i j) as [t|]; simpl; [|done].
    unfold erode. by destruct (in_window h wd _ _ i j).
Qed.

Lemma wf_image_texel (image : Image) (i j : nat) (t : Texel) :
  wf_image image → texel_at image i j = Some t → wf_texel t.
Proof.
  unfold wf_image, texel_at. intros Hwf Ht.
  destruct (image !! i) as [row|] eqn:Hrow; [|done]. simpl in Ht.
  eapply Forall_lookup_1 in Hwf as [_ Hwf]; [|exact Hrow].
  by eapply Forall_lookup_1 in Hwf.
Qed.

Lemma wf_image_width (image : Image) (i j : nat) (t : Texel) :
  wf_image image → texel_at image i j = Some t →
  (Z.of_nat i < (shape image).1)%Z ∧ (Z.of_nat j < (shape image).2)%Z.
Proof.
  unfold wf_image, texel_at, shape. intros Hwf Ht. simpl.
  destruct (image !! i) as [row|] eqn:Hrow; [|done]. simpl in Ht.
  apply lookup_lt_Some in Ht. pose proof (lookup_lt_Some _ _ _ Hrow).
  eapply Forall_lookup_1 in Hwf as [Hlen _]; [|exact Hrow]. lia.
Qed.

Lemma erode_eq (t : Texel) :
  erode t =
  {| red := darken (red t); green := darken (green t);
     blue := darken (blue t);
     alpha := if (darken (red t) + (darken (green t) + 0) <? 100)%Z
              then 0%Z else alpha t |}.
Proof.
  unfold erode, erase. rewrite mask_eq, darken_texel_eq. simpl.
  by destruct (_ <? 100)%Z.
Qed.

Lemma erode_alpha (t : Texel) :
  (0 ≤ alpha t)%Z → (0 ≤ alpha (erode t) ≤ alpha t)%Z.
Proof. rewrite erode_eq. simpl. destruct (_ <? 100)%Z; lia. Qed.

Lemma erode_wf (t : Texel) : wf_texel t → wf_texel (erode t).
Proof.
  unfold wf_texel. intros (Hr & Hg & Hb & Ha). rewrite erode_eq. simpl.
  split; [apply darken_byte, Hr|]. split; [apply darken_byte, Hg|].
  split; [apply darken_byte, Hb|].
  destruct (_ <? 100)%Z; [unfold byte; lia|done].
Qed.

Lemma map_window_wf (f : Texel → Texel) (y x : Z) (image : Image) :
  (∀ t, wf_texel t → wf_texel (f t)) →
  wf_image image → wf_image (map_window f y x image).
Proof.
  intros Hf Hwf. unfold wf_image. apply Forall_lookup. intros i row' Hrow'.
  assert (Hhd : length (hd [] (map_window f y x image))
                = length (hd [] image)).
  { pose proof (shape_map_window f y x image) as Hs. unfold shape in Hs.
    injection Hs as _ Hs. lia. }
  rewrite Hhd. unfold map_window in Hrow'.
  destruct (shape image) as [h wd]. rewrite list_lookup_imap in Hrow'.
  destruct (image !! i) as [row|] eqn:Hrow; [|done].
  injection Hrow' as <-.
  eapply Forall_lookup_1 in Hwf as [Hlen Hrowwf]; [|exact Hrow].
  split; [by rewrite length_imap|].
  apply Forall_lookup. intros j t' Ht'. rewrite list_lookup_imap in Ht'.
  destruct (row !! j) as [t|] eqn:Ht; [|done]. injection Ht' as <-.
  eapply Forall_lookup_1 in Hrowwf; [|exact Ht].
  destruct (in_window h wd y x i j); [by apply Hf|done].
Qed.

Lemma inside_dec (touch : Touch) : inside touch ∨ ¬ inside touch.
Proof.
  destruct (in_unit_square (mapped touch)) eqn:E.
  - left. by apply in_unit_square_inside.
  - right. intros H. apply in_unit_square_inside in H. congruence.
Qed.

Lemma poke_alpha (touch : Touch) (w : World) (i j : nat) (t : Texel) :
  (0 ≤ alpha t)%Z → texel_at (image w) i j = Some t →
  ∃ t' : Texel,
    texel_at (image (poke touch w)) i j = Some t'
    ∧ (0 ≤ alpha t' ≤ alpha t)%Z.
Proof.
  intros Ha Ht. destruct (inside_dec touch) as [Hin|Hout].
  - pose proof (poke_inside touch w i j Hin) as H.
    destruct (shape (image w)) as [h wd].
    destruct (pixel_index touch (image w)) as [x y].
    destruct H as [_ ->]. rewrite Ht. simpl.
    eexists. split; [done|].
    destruct (in_window h wd y x i j); [by apply erode_alpha|lia].
  - rewrite poke_outside by done. exists t. split; [done|lia].
Qed.

Lemma pokes_alpha (touches : list Touch) :
  ∀ (w : World) (i j : nat) (t : Texel),
    (0 ≤ alpha t)%Z → texel_at (image w) i j = Some t →
    ∃ t' : Texel,
      texel_at (image (pokes touches w)) i j = Some t'
      ∧ (0 ≤ alpha t' ≤ alpha t)%Z.
Proof.
  induction touches as [|touch touches IH]; intros w i j t Ha Ht; simpl.
  - exists t. split; [done|lia].
  - destruct (poke_alpha touch w i j t Ha Ht) as (t1 & Ht1 & Ha1).
    destruct (IH (poke touch w) i j t1) as (t' & Ht' & Ha'); [lia|done|].
    exists t'. split; [done|lia].
Qed.

(** C8.  Through any sequence of pokes the alpha of a texel of a byte buffer
    never grows, and an alpha of 0 stays 0. *)
Theorem alpha_never_increases (touches : list Touch) (w : World) (i j : nat)
    (t : Texel) :
  wf_image (image w) →
  texel_at (image w) i j = Some t →
  ∃ t' : Texel,
    texel_at (image (pokes touches w)) i j = Some t'
    ∧ (0 ≤ alpha t' ≤ alpha t)%Z
    ∧ (alpha t = 0%Z → alpha t' = 0%Z).
Proof.
  intros Hwf Ht.
  assert (Ha : (0 ≤ alpha t)%Z).
  { destruct (wf_image_texel _ _ _ _ Hwf Ht) as (_ & _ & _ & Ha).
    unfold byte in Ha. lia. }
  destruct (pokes_alpha touches w i j t Ha Ht) as (t' & Ht' & Ha').
  exists t'. split; [done|]. split; [done|]. lia.
Qed.

Lemma wf_uniform (t : Texel) : wf_texel t → wf_image (uniform t).
Proof.
  intros Ht. unfold wf_image, uniform. apply Forall_replicate.
  split; [reflexivity|]. by apply Forall_replicate.
Qed.

Lemma wf_grey : wf_texel grey.
Proof. unfold wf_texel, byte, grey. simpl. lia. Qed.

Lemma alpha_never_increases_witness :
  ∃ t' : Texel,
    texel_at
      (image (pokes [touch_centre; touch_right_edge; touch_centre]
                    (chisel_with (uniform grey)))) 1 1 = Some t'
    ∧ (0 ≤ alpha t' ≤ alpha grey)%Z
    ∧ (alpha grey = 0%Z → alpha t' = 0%Z).
Proof.
  apply (alpha_never_increases [touch_centre; touch_right_edge; touch_centre]
           (chisel_with (uniform grey)) 1 1 grey).
  - apply wf_uniform, wf_grey.
  - reflexivity.
Defined.

(** ** Pokes outside the unit square *)

Lemma touch_outside_is_outside : ¬ inside touch_outside.
Proof.
  intros H. apply in_unit_square_inside in H. vm_compute in H. discriminate.
Qed.

(** C7, as the claim has it, fails for a pixel index outside the buffer: a
    touch mapped to x = 1 on a buffer 3 wide has the column index 3, beyond
    the last column 2, and the poke darkens the last column of its rows. *)
Lemma poke_past_last_column_erodes :
  inside touch_right_edge
  ∧ shape (uniform grey) = (3, 3)%Z
  ∧ pixel_index touch_right_edge (uniform grey) = (3, 1)%Z
  ∧ texel_at (uniform grey) 1 2 = Some grey
  ∧ texel_at (image (poke touch_right_edge (chisel_with (uniform grey)))) 1 2
    = Some (mkTexel 160 160 160 255)
  ∧ image (poke touch_right_edge (chisel_with (uniform grey))) ≠ uniform grey.
Proof.
  split; [by apply in_unit_square_inside|].
  split; [reflexivity|]. split; [by vm_compute|]. split; [reflexivity|].
  split; [by vm_compute|].
  intros H. vm_compute in H. discriminate.
Qed.

(** ** The window of a poke *)

Lemma poke_image (touch : Touch) (w : World) :
  inside touch →
  let '(x, y) := pixel_index touch (image w) in
  image (poke touch w)
  = map_window erase y x (map_window darken_texel y x (image w)).
Proof.
  intros Hin. apply in_unit_square_inside in Hin.
  unfold poke, pixel_index. destruct (mapped touch) as [qx qy].
  rewrite Hin. simpl negb. cbv iota. by destruct (shape (image w)).
Qed.

Lemma darken_texel_wf (t : Texel) : wf_texel t → wf_texel (darken_texel t).
Proof.
  unfold wf_texel. intros (Hr & Hg & Hb & Ha). rewrite darken_texel_eq. simpl.
  split; [apply darken_byte, Hr|]. split; [apply darken_byte, Hg|].
  split; [apply darken_byte, Hb|done].
Qed.

Lemma erase_wf (t : Texel) : wf_texel t → wf_texel (erase t).
Proof.
  unfold wf_texel, erase. intros (Hr & Hg & Hb & Ha).
  destruct (mask t); simpl; [|done].
  split; [done|]. split; [done|]. split; [done|]. unfold byte. lia.
Qed.

(** A poke keeps the buffer a rectangle of bytes: the truncated products
    never leave [0, 255], so the store into [uint8] never wraps. *)
Lemma poke_wf (touch : Touch) (w : World) :
  wf_image (image w) → wf_image (image (poke touch w)).
Proof.
  intros Hwf. destruct (inside_dec touch) as [Hin|Hout].
  - pose proof (poke_image touch w Hin) as H.
    destruct (pixel_index touch (image w)) as [x y]. rewrite H.
    apply map_window_wf; [apply erase_wf|].
    apply map_window_wf; [apply darken_texel_wf|done].
  - by rewrite poke_outside.
Qed.

(** A texel of the slice is darkened, then erased when its mask is set. *)
Lemma poke_window_texel (touch : Touch) (w : World) (i j : nat) (t : Texel) :
  inside touch →
  let '(h, wd) := shape (image w) in
  let '(x, y) := pixel_index touch (image w) in
  in_window h wd y x i j = true →
  texel_at (image w) i j = Some t →
  texel_at (image (poke touch w)) i j = Some (erode t).
Proof.
  intros Hin. pose proof (poke_inside touch w i j Hin) as H.
  destruct (shape (image w)) as [h wd].
  destruct (pixel_index touch (image w)) as [x y].
  destruct H as [_ ->]. intros -> ->. done.
Qed.

(** Away from row 0 and column 0 the slice is the 3 x 3 window clipped to
    the buffer. *)
Lemma in_slice_clipped (c n k : Z) :
  (1 ≤ c)%Z → (0 ≤ n)%Z →
  in_slice (c - RADIUS) (c + RADIUS + 1) n k = true
  ↔ (c - 1 ≤ k ≤ c + 1)%Z ∧ (k < n)%Z.
Proof.
  intros Hc Hn. unfold in_slice, slice_clip, RADIUS.
  destruct (Z.ltb_spec (c - 1) 0); [lia|].
  destruct (Z.ltb_spec (c + 1 + 1) 0); [lia|].
  rewrite andb_true_iff, Z.leb_le, Z.ltb_lt. lia.
Qed.

(** At index 0 the bound [0 - R] is negative and counts from the end: on an
    axis of length 3 or more the slice [-1:2] is empty. *)
Lemma in_slice_empty_at_zero (n k : Z) :
  (3 ≤ n)%Z → in_slice (0 - RADIUS) (0 + RADIUS + 1) n k = false.
Proof.
  intros Hn. unfold in_slice, slice_clip, RADIUS.
  change (0 - 1 <? 0)%Z with true. change (0 + 1 + 1 <? 0)%Z with false.
  cbv iota. rewrite andb_false_iff, Z.leb_gt, Z.ltb_ge. lia.
Qed.

Lemma map_window_none (f : Texel → Texel) (y x : Z) (image : Image) :
  (∀ i j, in_window (shape image).1 (shape image).2 y x i j = false) →
  map_window f y x image = image.
Proof.
  intros Hnone. unfold map_window.
  destruct (shape image) as [h wd] eqn:Hshape. simpl in Hnone.
  apply list_eq. intros i. rewrite list_lookup_imap.
  destruct (image !! i) as [row|]; [|done]. simpl. f_equal.
  apply list_eq. intros j. rewrite list_lookup_imap.
  destruct (row !! j) as [t|]; [|done]. simpl. by rewrite Hnone.
Qed.

(** On a buffer at least 3 wide (or high), a poke on column 0 (or row 0)
    has an empty window and erodes nothing. *)
Lemma poke_on_lower_edge (touch : Touch) (w : World) :
  inside touch →
  let '(h, wd) := shape (image w) in
  let '(x, y) := pixel_index touch (image w) in
  (x = 0 ∧ 3 ≤ wd)%Z ∨ (y = 0 ∧ 3 ≤ h)%Z →
  image (poke touch w) = image w.
Proof.
  intros Hin. pose proof (poke_image touch w Hin) as H.
  destruct (shape (image w)) as [h wd] eqn:Hshape.
  destruct (pixel_index touch (image w)) as [x y]. intros Hedge.
  assert (Hnone : ∀ i j, in_window h wd y x i j = false).
  { intros i j. unfold in_window. apply andb_false_iff.
    destruct Hedge as [[-> Hw]|[-> Hh]].
    - right. by apply in_slice_empty_at_zero.
    - left. by apply in_slice_empty_at_zero. }
  rewrite H.
  rewrite (map_window_none darken_texel y x (image w))
    by (by rewrite Hshape).
  apply map_window_none. by rewrite Hshape.
Qed.

(** Away from those edges the code does what C6 says: every texel of the
    clipped 3 x 3 window has its three colour channels darkened. *)
Lemma poke_darkens_window (touch : Touch) (w : World) (i j : nat) (t : Texel) :
  wf_image (image w) →
  inside touch →
  let '(x, y) := pixel_index touch (image w) in
  (1 ≤ x)%Z → (1 ≤ y)%Z →
  (y - 1 ≤ Z.of_nat i ≤ y + 1)%Z → (x - 1 ≤ Z.of_nat j ≤ x + 1)%Z →
  texel_at (image w) i j = Some t →
  ∃ t' : Texel,
    texel_at (image (poke touch w)) i j = Some t'
    ∧ red t' = darken (red t) ∧ green t' = darken (green t)
    ∧ blue t' = darken (blue t).
Proof.
  intros Hwf Hin. pose proof (poke_window_texel touch w i j t Hin) as H.
  pose proof (wf_image_width (image w) i j t Hwf) as Hlt.
  destruct (shape (image w)) as [h wd].
  destruct (pixel_index touch (image w)) as [x y].
  intros Hx Hy Hi Hj Ht. destruct (Hlt Ht) as [Hih Hjw]. simpl in Hih, Hjw.
  exists (erode t). split.
  - apply H; [|done]. unfold in_window. apply andb_true_iff.
    split; apply in_slice_clipped; lia.
  - by rewrite erode_eq.
Qed.

(** C6 at the left edge.  A touch mapped to x = 0 pokes the pixel (0, 1) of
    the 3 x 3 buffer; the neighbourhood clipped to the buffer holds the
    columns 0 and 1, and the poke darkens none of its texels. *)
Theorem poke_on_left_edge_darkens_nothing :
  inside touch_left_edge
  ∧ pixel_index touch_left_edge (uniform grey) = (0, 1)%Z
  ∧ texel_at (image (poke touch_left_edge (chisel_with (uniform grey)))) 1 0
    = Some grey
  ∧ red grey ≠ darken (red grey)
  ∧ image (poke touch_left_edge (chisel_with (uniform grey))) = uniform grey.
Proof.
  split; [by apply in_unit_square_inside|]. split; [by vm_compute|].
  split; [by vm_compute|]. split; [by vm_compute|]. by vm_compute.
Qed.

(** ** Pokes out of bounds *)

(** Eroding a texel of bytes with a colour channel above 0 changes it. *)
Lemma erode_changes (t : Texel) :
  wf_texel t → (0 < red t ∨ 0 < green t ∨ 0 < blue t)%Z → erode t ≠ t.
Proof.
  intros (Hr & Hg & Hb & _) Hpos Heq. unfold byte in Hr, Hg, Hb.
  assert (H : red (erode t) = red t ∧ green (erode t) = green t
              ∧ blue (erode t) = blue t) by (by rewrite Heq).
  rewrite erode_eq in H. simpl in H. rewrite !darken_eq in H by lia.
  destruct H as (H1 & H2 & H3). revert H1 H2 H3.
  Z.div_mod_to_equations. lia.
Qed.

(** C7, as the code has it.  A poke whose mapped position is outside
    [0,1] x [0,1] changes nothing: the buffer, the pebbles and the rest of
    the world are as before, and the touch handlers return normally.  A
    poke whose mapped position is inside, with a pixel index [(x, y)]
    outside the buffer (the column index is the width, or the row index the
    height) and with the other index 1 or more, is not ignored: every texel
    of the buffer within one row and one column of the index lies in the
    last column (or row) and is eroded as by any other poke, which changes
    it when one of its colour channels is above 0; the pebbles are as
    before and the touch handlers return normally. *)
Theorem poke_out_of_bounds (touch : Touch) (w : World) (i j : nat)
    (t : Texel) :
  let x := (pixel_index touch (image w)).1 in
  let y := (pixel_index touch (image w)).2 in
  let h := (shape (image w)).1 in
  let wd := (shape (image w)).2 in
  (¬ inside touch →
   poke touch w = w
   ∧ image (poke touch w) = image w
   ∧ pebbles (poke touch w) = pebbles w
   ∧ heap (poke touch w) = heap w
   ∧ handle (TouchDown touch) w = Ok w
   ∧ handle (TouchMove touch) w = Ok w)
  ∧ (wf_image (image w) →
     inside touch →
     (x = wd ∧ 1 ≤ y)%Z ∨ (y = h ∧ 1 ≤ x)%Z →
     (y - 1 ≤ Z.of_nat i ≤ y + 1)%Z →
     (x - 1 ≤ Z.of_nat j ≤ x + 1)%Z →
     texel_at (image w) i j = Some t →
     texel_at (image (poke touch w)) i j = Some (erode t)
     ∧ ((x = wd → Z.of_nat j = wd - 1) ∧ (y = h → Z.of_nat i = h - 1))%Z
     ∧ ((0 < red t ∨ 0 < green t ∨ 0 < blue t)%Z →
        erode t ≠ t ∧ image (poke touch w) ≠ image w)
     ∧ pebbles (poke touch w) = pebbles w
     ∧ heap (poke touch w) = heap w
     ∧ handle (TouchDown touch) w = Ok (poke touch w)
     ∧ handle (TouchMove touch) w = Ok (poke touch w)).
Proof.
  intros x y h wd. split.
  - intros Hout. simpl. rewrite (poke_outside touch w Hout). by repeat split.
  - intros Hwf Hin Hedge Hi Hj Ht.
    destruct (wf_image_width (image w) i j t Hwf Ht) as [Hih Hjw].
    fold h in Hih. fold wd in Hjw.
    assert (Hx : (1 ≤ x)%Z) by lia. assert (Hy : (1 ≤ y)%Z) by lia.
    assert (Hnew : texel_at (image (poke touch w)) i j = Some (erode t)).
    { pose proof (poke_window_texel touch w i j t Hin) as H.
      unfold x, y, h, wd in *.
      destruct (shape (image w)) as [h' wd'].
      destruct (pixel_index touch (image w)) as [x' y'].
      cbn [fst snd] in *. apply H; [|done].
      unfold in_window. apply andb_true_iff.
      split; apply in_slice_clipped; lia. }
    split; [done|]. split; [lia|]. split.
    + intros Hpos.
      assert (Hne : erode t ≠ t).
      { apply erode_changes; [|done]. by eapply wf_image_texel. }
      split; [done|]. intros Heq. rewrite Heq, Ht in Hnew. congruence.
    + rewrite poke_pebbles, poke_heap. by repeat split.
Qed.

Lemma poke_out_of_bounds_witness :
  (poke touch_outside (chisel_with (uniform grey)) = chisel_with (uniform grey)
   ∧ image (poke touch_outside (chisel_with (uniform grey))) = uniform grey
   ∧ pebbles (poke touch_outside (chisel_with (uniform grey))) = ∅
   ∧ heap (poke touch_outside (chisel_with (uniform grey))) = ∅
   ∧ handle (TouchDown touch_outside) (chisel_with (uniform grey))
     = Ok (chisel_with (uniform grey))
   ∧ handle (TouchMove touch_outside) (chisel_with (uniform grey))
     = Ok (chisel_with (uniform grey)))
  ∧ (texel_at (image (poke touch_right_edge (chisel_with (uniform grey)))) 1 2
     = Some (erode grey)
     ∧ ((3 = 3 → Z.of_nat 2 = 3 - 1) ∧ (1 = 3 → Z.of_nat 1 = 3 - 1))%Z
     ∧ ((0 < red grey ∨ 0 < green grey ∨ 0 < blue grey)%Z →
        erode grey ≠ grey
        ∧ image (poke touch_right_edge (chisel_with (uniform grey)))
          ≠ uniform grey)
     ∧ pebbles (poke touch_right_edge (chisel_with (uniform grey))) = ∅
     ∧ heap (poke touch_right_edge (chisel_with (uniform grey))) = ∅
     ∧ handle (TouchDown touch_right_edge) (chisel_with (uniform grey))
       = Ok (poke touch_right_edge (chisel_with (uniform grey)))
     ∧ handle (TouchMove touch_right_edge) (chisel_with (uniform grey))
       = Ok (poke touch_right_edge (chisel_with (uniform grey)))).
Proof.
  assert (Hpi : pixel_index touch_right_edge (uniform grey) = (3, 1)%Z)
    by (by vm_compute).
  split.
  - apply (poke_out_of_bounds touch_outside (chisel_with (uniform grey))
             1%nat 2%nat grey).
    apply touch_outside_is_outside.
  - apply (poke_out_of_bounds touch_right_edge (chisel_with (uniform grey))
             1%nat 2%nat grey).
    + apply wf_uniform, wf_grey.
    + by apply in_unit_square_inside.
    + left. cbn [image chisel_with]. rewrite Hpi. simpl. lia.
    + cbn [image chisel_with]. rewrite Hpi. simpl. lia.
    + cbn [image chisel_with]. rewrite Hpi. simpl. lia.
    + reflexivity.
Defined.

(** ** The darkness test *)

(** What line 178 tests: the sum of the darkened red and green channels. *)
Lemma erode_alpha_rule (t : Texel) :
  alpha (erode t)
  = if (darken (red t) + darken (green t) <? 100)%Z then 0%Z else alpha t.
Proof. rewrite erode_eq. simpl. by rewrite Z.add_0_r. Qed.

(** C5 at a bright blue texel.  After the poke its three colour channels sum
    to 204, not below 100, and its alpha is 0 all the same: the blue channel
    is left out of the sum. *)
Theorem poke_erases_bright_blue :
  inside touch_centre
  ∧ pixel_index touch_centre (uniform bright_blue) = (1, 1)%Z
  ∧ texel_at (uniform bright_blue) 1 1 = Some (mkTexel 0 0 255 255)
  ∧ texel_at (image (poke touch_centre (chisel_with (uniform bright_blue))))
      1 1 = Some (mkTexel 0 0 204 0)
  ∧ ¬ (0 + 0 + 204 < 100)%Z.
Proof.
  split; [by apply in_unit_square_inside|]. split; [by vm_compute|].
  split; [by vm_compute|]. split; [by vm_compute|]. lia.
Qed.

(** ** Pokes and pebbles *)

(** C1 on the code.  No poke touches [chisel.pebbles] or creates a [Pebble]:
    a fast poke at the centre of a dark buffer erodes texels (the darkened
    sum is 72) and leaves the collection of pebbles empty. *)
Theorem poke_spawns_no_pebble :
  (∀ (touch : Touch) (w : World),
     pebbles (poke touch w) = pebbles w ∧ heap (poke touch w) = heap w)
  ∧ inside touch_centre
  ∧ texel_at (image (poke touch_centre (chisel_with (uniform dark)))) 1 1
    = Some (mkTexel 24 24 24 0)
  ∧ pebbles (poke touch_centre (chisel_with (uniform dark))) = ∅
  ∧ heap (poke touch_centre (chisel_with (uniform dark))) = ∅.
Proof.
  split; [intros touch w; by rewrite poke_pebbles, poke_heap|].
  split; [by apply in_unit_square_inside|]. split; [by vm_compute|].
  by rewrite poke_pebbles, poke_heap.
Qed.

(** * Further properties of the code *)

(** ** Pebble.step: the missing key *)

Lemma Rmax_0_eq (z : R) : Rmax 0 z = 0%R ↔ (z <= 0)%R.
Proof.
  split; intros H.
  - pose proof (Rmax_r 0 z). lra.
  - by apply Rmax_left.
Qed.

Lemma advance_lands (p : Pebble) (cw ch : R) :
  Pixel.y (pixel (advance p cw ch)) = 0%R
  ↔ (Pixel.y (pixel p) + (snd (velocity p) * FRICTION - GRAVITY) <= 0)%R.
Proof. rewrite advance_y. apply Rmax_0_eq. Qed.

(** What any step does, registered or not. *)
Lemma step_inv (w w' : World) (self : loc) (dt : R) (p : Pebble) :
  heap w !! self = Some p →
  step self dt w = Ok w' →
  let q := advance p (width w) (height w) in
  let landed := Req_bool (Pixel.y (pixel q)) 0 in
  heap w' = <[self := if landed then cancel q else q]> (heap w)
  ∧ pebbles w' = (if landed then delete (index p) (pebbles w) else pebbles w)
  ∧ image w' = image w ∧ width w' = width w ∧ height w' = height w
  ∧ _tool w' = _tool w.
Proof.
  intros Hp. unfold step. rewrite Hp. cbv zeta.
  destruct (Req_bool _ 0).
  - unfold del_pebble. simpl. rewrite advance_index.
    destruct (pebbles w !! index p); [|done]. by intros [= <-].
  - by intros [= <-].
Qed.

(** X3.  Stepping a pebble raises [KeyError] exactly when the pebble reaches the
    floor while its index is not a key of [chisel.pebbles]; in every other
    case the step returns. *)
Theorem step_key_error (w : World) (self : loc) (dt : R) (p : Pebble) :
  heap w !! self = Some p →
  (pebbles w !! index p = None
   ∧ (Pixel.y (pixel p) + (snd (velocity p) * FRICTION - GRAVITY) <= 0)%R →
   step self dt w = Raise (KeyError (index p)))
  ∧ (¬ (pebbles w !! index p = None
        ∧ (Pixel.y (pixel p) + (snd (velocity p) * FRICTION - GRAVITY)
           <= 0)%R) →
     ∃ w' : World, step self dt w = Ok w').
Proof.
  intros Hp. split.
  - intros [Hkey Hland]. apply step_unregistered; [done|done|].
    by apply advance_lands.
  - intros Hnot. destruct (pebbles w !! index p) as [l|] eqn:Hkey.
    + destruct (step_ok w self dt p Hp) as (w' & Hstep & _); [by exists l|].
      by exists w'.
    + unfold step. rewrite Hp. cbv zeta.
      destruct (Req_bool _ 0) eqn:Hland; [|by eexists].
      apply Req_bool_true, advance_lands in Hland. by destruct Hnot.
Qed.

(** A world with one pebble, object 0, and an empty [chisel.pebbles]: the
    step at which the pebble lands raises. *)
Lemma step_key_error_witness :
  step 0%nat (1 / 30)%R (store 0%nat (pebble_at 7 0.5 0.01 0 0) (chisel_with []))
  = Raise (KeyError 7).
Proof.
  apply (proj1 (step_key_error
                  (store 0%nat (pebble_at 7 0.5 0.01 0 0) (chisel_with []))
                  0%nat (1 / 30)%R (pebble_at 7 0.5 0.01 0 0) eq_refl)).
  split; [reflexivity|]. simpl. unfold FRICTION, GRAVITY. lra.
Defined.

(** ** Pebble.__init__ *)


(** ** Falling to the floor *)

Lemma tick_scheduled (w : World) (self : loc) (dt : R) (p : Pebble) :
  heap w !! self = Some p → update p = true →
  tick self dt w = step self dt w.
Proof. intros Hp Hu. unfold tick. by rewrite Hp, Hu. Qed.

Lemma run_ticks_cancelled (n : nat) (w : World) (self : loc) (dt : R)
    (p : Pebble) :
  heap w !! self = Some p → update p = false →
  run (replicate n (Tick self dt)) w = Ok w.
Proof.
  intros Hp Hu. induction n as [|n IH]; simpl; [done|].
  unfold tick. by rewrite Hp, Hu.
Qed.

Lemma run_ticks_succ (n : nat) (w w1 : World) (self : loc) (dt : R) :
  tick self dt w = Ok w1 →
  run (replicate (S n) (Tick self dt)) w = run (replicate n (Tick self dt)) w1.
Proof. intros H. cbn [replicate run handle]. by rewrite H. Qed.

(** One tick of a registered pebble that is not rising: it lands, or it is
    lower by [GRAVITY] at least and still not rising. *)
Lemma tick_falling (w : World) (self : loc) (dt : R) (p : Pebble) (bound : R) :
  heap w !! self = Some p →
  is_Some (pebbles w !! index p) →
  update p = true →
  (snd (velocity p) <= 0)%R →
  (0 <= bound)%R →
  (Pixel.y (pixel p) <= bound + GRAVITY)%R →
  ∃ (w' : World) (q : Pebble),
    tick self dt w = Ok w'
    ∧ heap w' !! self = Some q
    ∧ index q = index p
    ∧ ((Pixel.y (pixel q) = 0%R ∧ update q = false
        ∧ pebbles w' !! index p = None)
       ∨ ((0 < Pixel.y (pixel q) <= bound)%R ∧ update q = true
          ∧ (snd (velocity q) <= 0)%R ∧ pebbles w' = pebbles w)).
Proof.
  intros Hp Hreg Hu Hv Hb Hy. rewrite (tick_scheduled w self dt p Hp Hu).
  destruct (step_ok w self dt p Hp Hreg) as (w' & Hstep & Hheap & Hpeb & _).
  set (q := advance p (width w) (height w)) in *.
  assert (Hyq : Pixel.y (pixel q)
                = Rmax 0 (Pixel.y (pixel p)
                          + (snd (velocity p) * FRICTION - GRAVITY)))
    by apply advance_y.
  assert (Hvq : snd (velocity q) = (snd (velocity p) * FRICTION - GRAVITY)%R)
    by (unfold q; by rewrite advance_eq).
  unfold FRICTION, GRAVITY in *.
  destruct (Req_bool (Pixel.y (pixel q)) 0) eqn:Hland.
  - apply Req_bool_true in Hland. exists w', (cancel q).
    split; [done|]. split; [by rewrite Hheap, lookup_insert_eq|].
    split; [apply advance_index|]. left. split; [done|]. split; [done|].
    by rewrite Hpeb, lookup_delete_eq.
  - apply Req_bool_false in Hland. exists w', q.
    split; [done|]. split; [by rewrite Hheap, lookup_insert_eq|].
    split; [apply advance_index|]. right.
    assert (0 <= Pixel.y (pixel q))%R by (rewrite Hyq; apply Rmax_l).
    assert (Pixel.y (pixel q) <= bound)%R.
    { rewrite Hyq. apply Rmax_lub; lra. }
    split; [lra|]. split; [by unfold q; rewrite advance_update|].
    split; [lra|done].
Qed.

(** X5.  A registered, scheduled pebble that is not rising and is at a height of
    [n + 1] times [GRAVITY] at most has landed after [n + 1] ticks: the run
    returns, the pebble is at height 0, cancelled and deregistered. *)
Theorem falling_pebble_lands (n : nat) :
  ∀ (w : World) (self : loc) (dt : R) (p : Pebble),
    heap w !! self = Some p →
    is_Some (pebbles w !! index p) →
    update p = true →
    (snd (velocity p) <= 0)%R →
    (Pixel.y (pixel p) <= GRAVITY * INR (S n))%R →
    ∃ (w' : World) (p' : Pebble),
      run (replicate (S n) (Tick self dt)) w = Ok w'
      ∧ heap w' !! self = Some p'
      ∧ Pixel.y (pixel p') = 0%R
      ∧ update p' = false
      ∧ pebbles w' !! index p = None.
Proof.
  induction n as [|n IH]; intros w self dt p Hp Hreg Hu Hv Hy.
  - destruct (tick_falling w self dt p 0 Hp Hreg Hu Hv) as
      (w' & q & Htick & Hq & _ & [(Hy0 & Huq & Hkey)|(Hpos & _)]);
      [lra|simpl in Hy; lra| |lra].
    exists w', q. rewrite (run_ticks_succ 0 w w' self dt Htick).
    by repeat split.
  - assert (Hn : (0 <= GRAVITY * INR (S n))%R).
    { pose proof (pos_INR (S n)). unfold GRAVITY. nra. }
    destruct (tick_falling w self dt p (GRAVITY * INR (S n)) Hp Hreg Hu Hv Hn)
      as (w1 & q & Htick & Hq & Hidx & [(Hy0 & Huq & Hkey)|(Hpos & Huq & Hvq & Hpeb)]).
    { rewrite (S_INR (S n)) in Hy. lra. }
    + exists w1, q. rewrite (run_ticks_succ (S n) w w1 self dt Htick).
      rewrite (run_ticks_cancelled (S n) w1 self dt q Hq Huq).
      by repeat split.
    + destruct (IH w1 self dt q) as (w' & p' & Hrun & Hp' & Hy' & Hu' & Hkey');
        [done|by rewrite Hidx, Hpeb|done|done|lra|].
      exists w', p'. rewrite (run_ticks_succ (S n) w w1 self dt Htick).
      rewrite Hrun. rewrite Hidx in Hkey'. by repeat split.
Qed.

(** A pebble at rest at height 0.5 has landed after 25 ticks. *)
Lemma falling_pebble_lands_witness :
  ∃ (w' : World) (p' : Pebble),
    run (replicate 25 (Tick 0%nat (1 / 30)%R))
        (one_pebble (pebble_at 7 0.5 0.5 0 0)) = Ok w'
    ∧ heap w' !! 0%nat = Some p'
    ∧ Pixel.y (pixel p') = 0%R
    ∧ update p' = false
    ∧ pebbles w' !! 7%nat = None.
Proof.
  apply (falling_pebble_lands 24 (one_pebble (pebble_at 7 0.5 0.5 0 0)) 0%nat
           (1 / 30)%R (pebble_at 7 0.5 0.5 0 0)).
  - reflexivity.
  - exists 0%nat. reflexivity.
  - reflexivity.
  - simpl. lra.
  - change (Pixel.y (pixel (pebble_at 7 0.5 0.5 0 0))) with 0.5%R.
    assert (H25 : INR 25 = 25%R) by (by rewrite INR_IZR_INZ).
    rewrite H25. unfold GRAVITY. lra.
Defined.

(** ** Runs of events *)

Lemma handle_tick_inv (w w' : World) (l : loc) (dt : R) :
  handle (Tick l dt) w = Ok w' →
  w' = w
  ∨ ∃ p : Pebble,
      heap w !! l = Some p ∧ update p = true ∧ step l dt w = Ok w'.
Proof.
  simpl. unfold tick. destruct (heap w !! l) as [p|] eqn:Hp.
  - destruct (update p) eqn:Hu.
    + intros Hstep. right. by exists p.
    + intros [= <-]. by left.
  - intros [= <-]. by left.
Qed.

Lemma busy_run :
  ∃ w' : World,
    run [Tick 0%nat (1 / 30)%R; TouchDown touch_centre] busy = Ok w'.
Proof.
  assert (Hp : heap busy !! 0%nat = Some (pebble_at 7 0.5 0.5 0 (-0.2)))
    by reflexivity.
  assert (∃ w1, tick 0%nat (1 / 30)%R busy = Ok w1) as [w1 Hw1].
  { rewrite (tick_scheduled busy 0%nat _ _ Hp eq_refl).
    unfold step. rewrite Hp. cbv zeta.
    destruct (Req_bool _ 0) eqn:Hland; [|by eexists].
    apply Req_bool_true, advance_lands in Hland. simpl in Hland.
    unfold FRICTION, GRAVITY in Hland. lra. }
  exists (poke touch_centre w1). cbn [run handle]. by rewrite Hw1.
Qed.

Lemma bounded_busy : bounded busy.
Proof.
  intros l p Hp. unfold busy, store in Hp. simpl in Hp.
  apply lookup_insert_Some in Hp as [[_ <-]|[_ Hp]]; [|done].
  simpl. rewrite norm_terminal. unfold MAX_VELOCITY. lra.
Qed.

(** X6.  The speed bound is an invariant of the whole machine: when every pebble
    moves at [MAX_VELOCITY] at most, so does every pebble after any run of
    ticks and touches. *)
Theorem velocity_bound_invariant (es : list event) :
  ∀ w w' : World, bounded w → run es w = Ok w' → bounded w'.
Proof.
  induction es as [|e es IH]; intros w w' Hb Hrun; simpl in Hrun.
  - by injection Hrun as <-.
  - destruct (handle e w) as [w1|err] eqn:He; [|done].
    apply (IH w1 w'); [|done]. clear IH Hrun.
    destruct e as [l dt|touch|touch].
    + apply handle_tick_inv in He as [->|(p & Hp & _ & Hstep)]; [done|].
      destruct (step_inv w w1 l dt p Hp Hstep) as (Hheap & _).
      intros l' p' Hp'. rewrite Hheap in Hp'.
      apply lookup_insert_Some in Hp' as [[_ <-]|[_ Hp']]; [|by eapply Hb].
      assert (Hn : (norm (velocity (advance p (width w) (height w)))
                    <= MAX_VELOCITY)%R) by (apply advance_norm; by eapply Hb).
      by destruct (Req_bool _ 0).
    + injection He as <-. intros l p. rewrite poke_heap. apply Hb.
    + injection He as <-. intros l p. rewrite poke_heap. apply Hb.
Qed.

Lemma velocity_bound_invariant_witness :
  ∃ w' : World,
    run [Tick 0%nat (1 / 30)%R; TouchDown touch_centre] busy = Ok w'
    ∧ bounded w'.
Proof.
  destruct busy_run as [w' Hrun]. exists w'. split; [exact Hrun|].
  exact (velocity_bound_invariant _ busy w' bounded_busy Hrun).
Defined.

(** X7.  No run of events creates or destroys a pebble object, changes the index
    of one, reschedules a cancelled one, or adds a key to [chisel.pebbles]
    or changes the object a key stands for. *)
Theorem run_never_adds (es : list event) :
  ∀ w w' : World,
    run es w = Ok w' →
    dom (heap w') = dom (heap w)
    ∧ (∀ (l : loc) (p' : Pebble),
         heap w' !! l = Some p' →
         ∃ p : Pebble,
           heap w !! l = Some p ∧ index p' = index p
           ∧ (update p' = true → update p = true))
    ∧ (∀ (key : nat) (l : loc),
         pebbles w' !! key = Some l → pebbles w !! key = Some l).
Proof.
  induction es as [|e es IH]; intros w w' Hrun; simpl in Hrun.
  - injection Hrun as <-. split; [done|]. split; [|done].
    intros l p' Hp'. by exists p'.
  - destruct (handle e w) as [w1|err] eqn:He; [|done].
    destruct (IH w1 w' Hrun) as (Hdom & Hobj & Hkeys). clear IH Hrun.
    assert (H1 : dom (heap w1) = dom (heap w)
                 ∧ (∀ l p', heap w1 !! l = Some p' →
                    ∃ p, heap w !! l = Some p ∧ index p' = index p
                         ∧ (update p' = true → update p = true))
                 ∧ (∀ key l, pebbles w1 !! key = Some l →
                    pebbles w !! key = Some l)).
    { destruct e as [l dt|touch|touch].
      - apply handle_tick_inv in He as [->|(p & Hp & Hu & Hstep)].
        { split; [done|]. split; [|done]. intros l' p' Hp'. by exists p'. }
        destruct (step_inv w w1 l dt p Hp Hstep) as (Hheap & Hpeb & _).
        split; [|split].
        + rewrite Hheap. apply dom_insert_lookup_L. by exists p.
        + intros l' p' Hp'. rewrite Hheap in Hp'.
          apply lookup_insert_Some in Hp' as [[<- <-]|[_ Hp']].
          * exists p. split; [done|]. split; [|done].
            destruct (Req_bool _ 0); simpl; apply advance_index.
          * by exists p'.
        + intros key l'. rewrite Hpeb. destruct (Req_bool _ 0); [|done].
          intros Hk. by apply lookup_delete_Some in Hk as [_ Hk].
      - injection He as <-. rewrite poke_heap, poke_pebbles.
        split; [done|]. split; [|done]. intros l p' Hp'. by exists p'.
      - injection He as <-. rewrite poke_heap, poke_pebbles.
        split; [done|]. split; [|done]. intros l p' Hp'. by exists p'. }
    destruct H1 as (Hdom1 & Hobj1 & Hkeys1).
    split; [by rewrite Hdom, Hdom1|]. split.
    + intros l p' Hp'. destruct (Hobj l p' Hp') as (p1 & Hp1 & Hi1 & Hu1).
      destruct (Hobj1 l p1 Hp1) as (p & Hp & Hi & Hu).
      exists p. split; [done|]. split; [congruence|tauto].
    + intros key l Hk. by apply Hkeys1, Hkeys.
Qed.

Lemma run_never_adds_witness :
  ∃ w' : World,
    run [Tick 0%nat (1 / 30)%R; TouchDown touch_centre] busy = Ok w'
    ∧ dom (heap w') = dom (heap busy)
    ∧ (∀ (l : loc) (p' : Pebble),
         heap w' !! l = Some p' →
         ∃ p : Pebble,
           heap busy !! l = Some p ∧ index p' = index p
           ∧ (update p' = true → update p = true))
    ∧ (∀ (key : nat) (l : loc),
         pebbles w' !! key = Some l → pebbles busy !! key = Some l).
Proof.
  destruct busy_run as [w' Hrun]. exists w'. split; [exact Hrun|].
  exact (run_never_adds _ busy w' Hrun).
Defined.

Lemma poke_image_only (touch : Touch) (w1 w2 : World) :
  image w1 = image w2 → image (poke touch w1) = image (poke touch w2).
Proof.
  intros Him. unfold poke. destruct (mapped touch) as [x y].
  destruct (negb _); [done|]. rewrite Him.
  by destruct (shape (image w2)).
Qed.

(** X8.  Erosion and pebbles do not interact: the buffer after a run of events is
    the buffer after the touches of the run alone, in their order. *)
Theorem run_image (es : list event) :
  ∀ w w' : World,
    run es w = Ok w' → image w' = image (pokes (touches_of es) w).
Proof.
  assert (Hgen : ∀ w w' w2 : World,
            run es w = Ok w' → image w = image w2 →
            image w' = image (pokes (touches_of es) w2)).
  { induction es as [|e es IH]; intros w w' w2 Hrun Him; simpl in Hrun.
    - by injection Hrun as <-.
    - destruct (handle e w) as [w1|err] eqn:He; [|done].
      destruct e as [l dt|touch|touch]; simpl touches_of.
      + apply (IH w1 w' w2 Hrun).
        apply handle_tick_inv in He as [->|(p & Hp & _ & Hstep)]; [done|].
        destruct (step_inv w w1 l dt p Hp Hstep) as (_ & _ & -> & _). done.
      + injection He as <-. apply (IH _ w' _ Hrun). by apply poke_image_only.
      + injection He as <-. apply (IH _ w' _ Hrun). by apply poke_image_only. }
  intros w w' Hrun. by apply (Hgen w w' w).
Qed.

Lemma run_image_witness :
  ∃ w' : World,
    run [Tick 0%nat (1 / 30)%R; TouchDown touch_centre] busy = Ok w'
    ∧ image w' = image (pokes [touch_centre] busy).
Proof.
  destruct busy_run as [w' Hrun]. exists w'. split; [exact Hrun|].
  exact (run_image _ busy w' Hrun).
Defined.

(** ** The buffer after a sequence of pokes *)

Lemma grid_map_ext (f g : nat → nat → Texel → Texel) (image : Image) :
  (∀ i j t, f i j t = g i j t) → grid_map f image = grid_map g image.
Proof.
  intros Hfg. unfold grid_map. apply imap_ext. intros i row _.
  apply imap_ext. intros j t _. apply Hfg.
Qed.

Lemma grid_map_compose (f g : nat → nat → Texel → Texel) (image : Image) :
  grid_map f (grid_map g image) = grid_map (λ i j t, f i j (g i j t)) image.
Proof.
  unfold grid_map. apply list_eq. intros i. rewrite !list_lookup_imap.
  destruct (image !! i) as [row|]; [|done]. simpl. f_equal.
  apply list_eq. intros j. rewrite !list_lookup_imap.
  by destruct (row !! j).
Qed.

Lemma grid_map_id (image : Image) : grid_map (λ _ _ t, t) image = image.
Proof.
  unfold grid_map. apply list_eq. intros i. rewrite list_lookup_imap.
  destruct (image !! i) as [row|]; [|done]. simpl. f_equal.
  apply list_eq. intros j. rewrite list_lookup_imap. by destruct (row !! j).
Qed.

Lemma shape_grid_map (f : nat → nat → Texel → Texel) (image : Image) :
  shape (grid_map f image) = shape image.
Proof.
  unfold grid_map, shape. rewrite length_imap. f_equal.
  destruct image as [|row rows]; [done|]. cbn [imap hd].
  by rewrite length_imap.
Qed.

Lemma texel_at_grid_map (f : nat → nat → Texel → Texel) (image : Image)
    (i j : nat) :
  texel_at (grid_map f image) i j = f i j <$> texel_at image i j.
Proof.
  unfold texel_at, grid_map. rewrite list_lookup_imap.
  destruct (image !! i) as [row|]; [|done].
  cbn [fmap option_fmap option_map mbind option_bind].
  by rewrite list_lookup_imap.
Qed.

Lemma map_window_grid (f : Texel → Texel) (y x : Z) (image : Image) :
  map_window f y x image
  = grid_map (λ i j t,
      if in_window (shape image).1 (shape image).2 y x i j then f t else t)
      image.
Proof. reflexivity. Qed.

(** One poke, as a rewriting of the buffer. *)
Lemma poke_image_hits (touch : Touch) (w : World) :
  image (poke touch w)
  = grid_map (λ i j t, if hits (image w) i j touch then erode t else t)
      (image w).
Proof.
  destruct (in_unit_square (mapped touch)) eqn:Hin.
  - pose proof (poke_image touch w (proj1 (in_unit_square_inside touch) Hin))
      as H.
    unfold hits. rewrite Hin.
    destruct (pixel_index touch (image w)) as [x y]. rewrite H.
    rewrite !map_window_grid, shape_grid_map, grid_map_compose.
    apply grid_map_ext. intros i j t. simpl. unfold erode.
    by destruct (in_window _ _ y x i j).
  - rewrite poke_outside.
    + unfold hits. rewrite Hin. simpl. by rewrite grid_map_id.
    + intros H. apply in_unit_square_inside in H. congruence.
Qed.

Lemma poke_shape (touch : Touch) (w : World) :
  shape (image (poke touch w)) = shape (image w).
Proof. rewrite poke_image_hits. apply shape_grid_map. Qed.

Lemma hits_shape (image1 image2 : Image) (i j : nat) (touch : Touch) :
  shape image1 = shape image2 → hits image1 i j touch = hits image2 i j touch.
Proof.
  intros Hs. unfold hits, pixel_index. rewrite Hs. done.
Qed.

Lemma hit_count_shape (image1 image2 : Image) (i j : nat)
    (touches : list Touch) :
  shape image1 = shape image2 →
  hit_count image1 i j touches = hit_count image2 i j touches.
Proof.
  intros Hs. induction touches as [|touch touches IH]; simpl; [done|].
  by rewrite IH, (hits_shape image1 image2).
Qed.

(** The buffer after a sequence of pokes: each texel eroded as many times
    as pokes reached it. *)
Lemma pokes_image_grid (touches : list Touch) :
  ∀ w : World,
    image (pokes touches w)
    = grid_map (λ i j t, Nat.iter (hit_count (image w) i j touches) erode t)
        (image w).
Proof.
  induction touches as [|touch touches IH]; intros w; simpl.
  - by rewrite grid_map_id.
  - rewrite IH, poke_image_hits, grid_map_compose.
    apply grid_map_ext. intros i j t.
    rewrite (hit_count_shape _ (image w)) by apply shape_grid_map.
    destruct (hits (image w) i j touch); [|done].
    symmetry. apply Nat.iter_succ_r.
Qed.

Lemma pokes_set_image (touches : list Touch) :
  ∀ w : World, pokes touches w = set_image (image (pokes touches w)) w.
Proof.
  assert (Hpoke : ∀ touch w, poke touch w = set_image (image (poke touch w)) w).
  { intros touch w. unfold poke. destruct (mapped touch) as [x y].
    destruct (negb _); [by destruct w|]. by destruct (shape (image w)). }
  induction touches as [|touch touches IH]; intros w; simpl.
  - by destruct w.
  - rewrite IH. rewrite (Hpoke touch w) at 2. done.
Qed.

(** X11.  The effect of any sequence of pokes, texel by texel: the shape of the
    buffer is kept, and the texel at [(i, j)] is the original one eroded
    (darkened, then erased when dark) once for each poke that reached it. *)
Theorem pokes_closed_form (touches : list Touch) (w : World) (i j : nat) :
  shape (image (pokes touches w)) = shape (image w)
  ∧ texel_at (image (pokes touches w)) i j
    = Nat.iter (hit_count (image w) i j touches) erode
        <$> texel_at (image w) i j.
Proof.
  rewrite pokes_image_grid. split.
  - apply shape_grid_map.
  - apply texel_at_grid_map.
Qed.

Lemma hit_count_perm (image : Image) (i j : nat) (ts ts' : list Touch) :
  ts ≡ₚ ts' → hit_count image i j ts = hit_count image i j ts'.
Proof.
  induction 1 as [|t ts ts' _ IH|t1 t2 ts|ts1 ts2 ts3 _ IH1 _ IH2]; simpl.
  - done.
  - by rewrite IH.
  - lia.
  - by rewrite IH1.
Qed.

(** X12.  The order of the pokes does not matter: two sequences with the same
    touches, in any order, leave the same world. *)
Theorem pokes_commute (ts ts' : list Touch) (w : World) :
  ts ≡ₚ ts' → pokes ts w = pokes ts' w.
Proof.
  intros Hperm. rewrite (pokes_set_image ts w), (pokes_set_image ts' w).
  f_equal. rewrite !pokes_image_grid. apply grid_map_ext. intros i j t.
  by rewrite (hit_count_perm (image w) i j ts ts' Hperm).
Qed.

Lemma pokes_commute_witness :
  pokes [touch_centre; touch_right_edge] (chisel_with (uniform grey))
  = pokes [touch_right_edge; touch_centre] (chisel_with (uniform grey)).
Proof.
  apply (pokes_commute [touch_centre; touch_right_edge]
           [touch_right_edge; touch_centre] (chisel_with (uniform grey))).
  apply Permutation_swap.
Defined.

(** ** Repeated erosion of one texel *)

Lemma iter_erode_rgb (n : nat) (t : Texel) :
  red (Nat.iter n erode t) = Nat.iter n darken (red t)
  ∧ green (Nat.iter n erode t) = Nat.iter n darken (green t)
  ∧ blue (Nat.iter n erode t) = Nat.iter n darken (blue t).
Proof.
  induction n as [|n (IHr & IHg & IHb)]; [done|].
  simpl. rewrite erode_eq. simpl. by rewrite IHr, IHg, IHb.
Qed.

Lemma darken_mono (a b : Z) : (0 ≤ a ≤ b)%Z → (0 ≤ darken a ≤ darken b)%Z.
Proof.
  intros H. rewrite !darken_eq by lia. Z.div_mod_to_equations. lia.
Qed.

Lemma darken_lt (v : Z) : (0 < v)%Z → (0 ≤ darken v < v)%Z.
Proof. intros H. rewrite darken_eq by lia. Z.div_mod_to_equations. lia. Qed.

Lemma iter_darken_mono (n : nat) (a b : Z) :
  (0 ≤ a ≤ b)%Z → (0 ≤ Nat.iter n darken a ≤ Nat.iter n darken b)%Z.
Proof.
  intros H. induction n as [|n IH]; simpl; [done|]. by apply darken_mono.
Qed.

Lemma iter_darken_le (n : nat) (v : Z) :
  (0 ≤ v)%Z → (0 ≤ Nat.iter n darken v ≤ v)%Z.
Proof.
  intros H. induction n as [|n IH]; simpl; [lia|].
  pose proof (darken_mono (Nat.iter n darken v) v IH) as Hm.
  assert (darken v ≤ v)%Z; [|lia].
  rewrite darken_eq by lia. Z.div_mod_to_equations. lia.
Qed.

Lemma iter_darken_lt (n : nat) (v : Z) :
  (0 < v)%Z → (Nat.iter (S n) darken v < v)%Z.
Proof.
  intros H. rewrite Nat.iter_succ_r.
  pose proof (darken_lt v H). pose proof (iter_darken_le n (darken v)). lia.
Qed.

Lemma erode_alpha_zero (t : Texel) : alpha t = 0%Z → alpha (erode t) = 0%Z.
Proof. intros H. rewrite erode_alpha_rule, H. by destruct (_ <? 100)%Z. Qed.

Lemma iter_erode_alpha_succ (n : nat) (t : Texel) :
  alpha (Nat.iter (S n) erode t)
  = if (Nat.iter (S n) darken (red t) + Nat.iter (S n) darken (green t)
        <? 100)%Z
    then 0%Z else alpha (Nat.iter n erode t).
Proof.
  rewrite !Nat.iter_succ, erode_alpha_rule.
  by destruct (iter_erode_rgb n t) as (-> & -> & _).
Qed.

Lemma iter_darken_8_255 : Nat.iter 8 darken 255%Z = 41%Z.
Proof. by vm_compute. Qed.

(** Eight erosions erase any texel of a byte buffer. *)
Lemma iter_erode_erased (n : nat) (t : Texel) :
  wf_texel t → 8 ≤ n → alpha (Nat.iter n erode t) = 0%Z.
Proof.
  intros (Hr & Hg & _) Hn. unfold byte in *.
  induction n as [|n IH]; [lia|].
  rewrite iter_erode_alpha_succ.
  destruct (decide (8 ≤ n)) as [Hge|Hlt].
  - rewrite IH by done. by destruct (_ <? 100)%Z.
  - assert (n = 7) as -> by lia.
    pose proof (iter_darken_mono 8 (red t) 255) as H1.
    pose proof (iter_darken_mono 8 (green t) 255) as H2.
    rewrite iter_darken_8_255 in H1, H2.
    destruct (Z.ltb_spec (Nat.iter 8 darken (red t)
                          + Nat.iter 8 darken (green t)) 100); [done|lia].
Qed.

(** X13.  Erosion completes: once eight pokes of a sequence have reached a texel
    of a byte buffer, its alpha is 0, whatever its colour was. *)
Theorem erosion_completes (touches : list Touch) (w : World) (i j : nat)
    (t : Texel) :
  wf_image (image w) →
  texel_at (image w) i j = Some t →
  8 ≤ hit_count (image w) i j touches →
  ∃ t' : Texel,
    texel_at (image (pokes touches w)) i j = Some t' ∧ alpha t' = 0%Z.
Proof.
  intros Hwf Ht Hn. rewrite pokes_image_grid, texel_at_grid_map, Ht.
  cbn [fmap option_fmap option_map].
  eexists. split; [reflexivity|].
  apply iter_erode_erased; [|done]. by eapply wf_image_texel.
Qed.

Lemma erosion_completes_witness :
  ∃ t' : Texel,
    texel_at (image (pokes (replicate 8 touch_centre)
                           (chisel_with (uniform (mkTexel 255 255 255 255)))))
             1 1 = Some t'
    ∧ alpha t' = 0%Z.
Proof.
  apply (erosion_completes (replicate 8 touch_centre)
           (chisel_with (uniform (mkTexel 255 255 255 255))) 1 1
           (mkTexel 255 255 255 255)).
  - apply wf_uniform. unfold wf_texel, byte. simpl. lia.
  - reflexivity.
  - vm_compute. lia.
Defined.

(** Eight is the least such number: a white texel is still opaque after
    seven pokes. *)
Lemma seven_pokes_leave_white_opaque :
  texel_at (image (pokes (replicate 7 touch_centre)
                         (chisel_with (uniform (mkTexel 255 255 255 255)))))
           1 1 = Some (mkTexel 52 52 52 255).
Proof. by vm_compute. Qed.

(** X14.  Colours only darken: through any sequence of pokes each colour channel
    of a texel of a byte buffer stays a byte and never grows, and a channel
    above 0 of a texel that a poke reached is strictly smaller afterwards. *)
Theorem colours_only_darken (touches : list Touch) (w : World) (i j : nat)
    (t : Texel) :
  wf_image (image w) →
  texel_at (image w) i j = Some t →
  ∃ t' : Texel,
    texel_at (image (pokes touches w)) i j = Some t'
    ∧ (0 ≤ red t' ≤ red t)%Z ∧ (0 ≤ green t' ≤ green t)%Z
    ∧ (0 ≤ blue t' ≤ blue t)%Z
    ∧ (1 ≤ hit_count (image w) i j touches →
       ((0 < red t)%Z → (red t' < red t)%Z)
       ∧ ((0 < green t)%Z → (green t' < green t)%Z)
       ∧ ((0 < blue t)%Z → (blue t' < blue t)%Z)).
Proof.
  intros Hwf Ht.
  destruct (wf_image_texel _ _ _ _ Hwf Ht) as (Hr & Hg & Hb & _).
  unfold byte in *.
  rewrite pokes_image_grid, texel_at_grid_map, Ht.
  cbn [fmap option_fmap option_map].
  set (n := hit_count (image w) i j touches).
  eexists. split; [reflexivity|].
  destruct (iter_erode_rgb n t) as (-> & -> & ->).
  split; [apply iter_darken_le; lia|]. split; [apply iter_darken_le; lia|].
  split; [apply iter_darken_le; lia|].
  intros Hn. destruct n as [|n]; [lia|].
  repeat split; apply iter_darken_lt.
Qed.

Lemma colours_only_darken_witness :
  ∃ t' : Texel,
    texel_at (image (pokes [touch_centre; touch_centre]
                           (chisel_with (uniform grey)))) 1 1 = Some t'
    ∧ (0 ≤ red t' ≤ red grey)%Z ∧ (0 ≤ green t' ≤ green grey)%Z
    ∧ (0 ≤ blue t' ≤ blue grey)%Z
    ∧ (1 ≤ hit_count (image (chisel_with (uniform grey))) 1 1
             [touch_centre; touch_centre] →
       ((0 < red grey)%Z → (red t' < red grey)%Z)
       ∧ ((0 < green grey)%Z → (green t' < green grey)%Z)
       ∧ ((0 < blue grey)%Z → (blue t' < blue grey)%Z)).
Proof.
  apply (colours_only_darken [touch_centre; touch_centre]
           (chisel_with (uniform grey)) 1 1 grey).
  - apply wf_uniform, wf_grey.
  - reflexivity.
Defined.

(** X15.  The buffer stays a rectangle of bytes through any sequence of pokes:
    no store into the [uint8] array is out of range. *)
Theorem pokes_keep_bytes (touches : list Touch) :
  ∀ w : World, wf_image (image w) → wf_image (image (pokes touches w)).
Proof.
  induction touches as [|touch touches IH]; intros w Hwf; simpl; [done|].
  apply IH. by apply poke_wf.
Qed.

Lemma pokes_keep_bytes_witness :
  wf_image (image (pokes [touch_centre; touch_right_edge; touch_left_edge]
                         (chisel_with (uniform grey)))).
Proof.
  apply (pokes_keep_bytes [touch_centre; touch_right_edge; touch_left_edge]
           (chisel_with (uniform grey))).
  apply wf_uniform, wf_grey.
Defined.

(** ** Where a poke lands *)

Lemma int_bounds (q : Q) (n : nat) :
  (0 <= q <= 1)%Q → (0 ≤ int (q * inject_Z (Z.of_nat n)) ≤ Z.of_nat n)%Z.
Proof.
  intros [H0 H1].
  assert (Hn : (0 <= inject_Z (Z.of_nat n))%Q).
  { change 0%Q with (inject_Z 0). rewrite <- Zle_Qle. lia. }
  assert (Hr0 : (0 <= q * inject_Z (Z.of_nat n))%Q)
    by (by apply Qmult_le_0_compat).
  assert (Hr1 : (q * inject_Z (Z.of_nat n) <= inject_Z (Z.of_nat n))%Q).
  { rewrite <- (Qmult_1_l (inject_Z (Z.of_nat n))) at 2.
    by apply Qmult_le_compat_r. }
  unfold int. rewrite (proj2 (Qle_bool_iff _ _) Hr0).
  apply Qfloor_resp_le in Hr0, Hr1. rewrite Qfloor_Z in Hr1.
  change (Qfloor 0) with 0%Z in Hr0. lia.
Qed.

Lemma int_lt (q : Q) (n : nat) :
  (0 <= q)%Q → (q < 1)%Q → (0 < Z.of_nat n)%Z →
  (int (q * inject_Z (Z.of_nat n)) < Z.of_nat n)%Z.
Proof.
  intros H0 H1 Hn.
  assert (Hpos : (0 < inject_Z (Z.of_nat n))%Q).
  { change 0%Q with (inject_Z 0). by rewrite <- Zlt_Qlt. }
  assert (Hr0 : (0 <= q * inject_Z (Z.of_nat n))%Q).
  { apply Qmult_le_0_compat; [done|]. by apply Qlt_le_weak. }
  assert (Hr1 : (q * inject_Z (Z.of_nat n) < inject_Z (Z.of_nat n))%Q).
  { rewrite <- (Qmult_1_l (inject_Z (Z.of_nat n))) at 2.
    by apply Qmult_lt_compat_r. }
  unfold int. rewrite (proj2 (Qle_bool_iff _ _) Hr0).
  rewrite Zlt_Qlt. eapply Qle_lt_trans; [apply Qfloor_le|done].
Qed.

Lemma pixel_index_eq (touch : Touch) (image : Image) :
  pixel_index touch image
  = (int ((mapped touch).1 * inject_Z (shape image).2),
     int ((mapped touch).2 * inject_Z (shape image).1)).
Proof. unfold pixel_index. by destruct (mapped touch). Qed.

Lemma pixel_index_bounds (touch : Touch) (image : Image) :
  inside touch →
  (0 ≤ (pixel_index touch image).1 ≤ (shape image).2)%Z
  ∧ (0 ≤ (pixel_index touch image).2 ≤ (shape image).1)%Z.
Proof.
  intros [Hx Hy]. rewrite pixel_index_eq. unfold shape. simpl.
  split; by apply int_bounds.
Qed.

(** The slice around a centre that is not negative holds only indices
    within 1 of the centre, inside the axis. *)
Lemma in_slice_near (c n k : Z) :
  (0 ≤ c)%Z → (0 ≤ n)%Z → (0 ≤ k)%Z →
  in_slice (c - RADIUS) (c + RADIUS + 1) n k = true →
  (c - 1 ≤ k ≤ c + 1)%Z ∧ (k < n)%Z.
Proof.
  intros Hc Hn Hk. unfold in_slice, slice_clip, RADIUS.
  rewrite andb_true_iff, Z.leb_le, Z.ltb_lt.
  destruct (Z.ltb_spec (c - 1) 0); destruct (Z.ltb_spec (c + 1 + 1) 0); lia.
Qed.

(** X16.  A poke is local.  Its pixel index is within [0, w] x [0, h]; it reaches
    only texels within one row and one column of that index; and every
    other texel of the buffer is left as it was. *)
Theorem poke_locality (touch : Touch) (w : World) (i j : nat) :
  let x := (pixel_index touch (image w)).1 in
  let y := (pixel_index touch (image w)).2 in
  (inside touch →
   (0 ≤ x ≤ (shape (image w)).2)%Z ∧ (0 ≤ y ≤ (shape (image w)).1)%Z)
  ∧ (hits (image w) i j touch = true →
     (y - 1 ≤ Z.of_nat i ≤ y + 1)%Z ∧ (x - 1 ≤ Z.of_nat j ≤ x + 1)%Z)
  ∧ (∀ t : Texel,
       texel_at (image w) i j = Some t →
       ¬ ((y - 1 ≤ Z.of_nat i ≤ y + 1)%Z ∧ (x - 1 ≤ Z.of_nat j ≤ x + 1)%Z) →
       texel_at (image (poke touch w)) i j = Some t).
Proof.
  intros x y.
  assert (Hnear : hits (image w) i j touch = true →
            (y - 1 ≤ Z.of_nat i ≤ y + 1)%Z ∧ (x - 1 ≤ Z.of_nat j ≤ x + 1)%Z).
  { unfold hits. rewrite andb_true_iff. intros [Hin Hwin].
    apply in_unit_square_inside in Hin.
    destruct (pixel_index_bounds touch (image w) Hin) as [Hx Hy].
    fold x in Hx, Hwin. fold y in Hy, Hwin.
    unfold in_window in Hwin. apply andb_true_iff in Hwin as [Hrow Hcol].
    apply in_slice_near in Hrow; [|lia|unfold shape; simpl; lia|lia].
    apply in_slice_near in Hcol; [|lia|unfold shape; simpl; lia|lia].
    lia. }
  split; [apply pixel_index_bounds|]. split; [done|].
  intros t Ht Hfar. rewrite poke_image_hits, texel_at_grid_map, Ht.
  cbn [fmap option_fmap option_map].
  destruct (hits (image w) i j touch) eqn:Hhit; [|done].
  by destruct Hfar; apply Hnear.
Qed.

(** ** The rectangle on the screen and the guard of poke *)

Lemma mapped_eq (touch : Touch) :
  mapped touch
  = (1.333 * ((spos touch).1 - 0.125), 1.333 * ((spos touch).2 - 0.1))%Q.
Proof. unfold mapped. by destruct (spos touch). Qed.

(** X17.  [resize] and [poke] agree on where the boulder is.  A touch at a point
    of the rectangle that [resize] lays out passes the guard of [poke]; its
    mapped coordinates are 0.99975 at most; so on a buffer that is not empty
    its pixel index is the index of a texel of the buffer. *)
Theorem touch_on_rect_is_poked (pos : Q * Q) (width height : Q)
    (touch : Touch) (image : Image) :
  let canvas := resize pos (width, height) in
  let px := ((spos touch).1 * width)%Q in
  let py := ((spos touch).2 * height)%Q in
  (0 < width)%Q → (0 < height)%Q →
  ((rect_pos canvas).1 <= px)%Q →
  (px <= (rect_pos canvas).1 + (rect_size canvas).1)%Q →
  ((rect_pos canvas).2 <= py)%Q →
  (py <= (rect_pos canvas).2 + (rect_size canvas).2)%Q →
  inside touch
  ∧ ((mapped touch).1 <= 0.99975)%Q ∧ ((mapped touch).2 <= 0.99975)%Q
  ∧ ((0 < (shape image).1)%Z → (0 < (shape image).2)%Z →
     (0 ≤ (pixel_index touch image).1 < (shape image).2)%Z
     ∧ (0 ≤ (pixel_index touch image).2 < (shape image).1)%Z).
Proof.
  intros canvas px py Hw Hh Hx0 Hx1 Hy0 Hy1.
  unfold canvas, px, py, resize, IMAGE_SCALE in *. simpl in *.
  unfold Qdiv in *. change (/ 2)%Q with (1 # 2)%Q in *.
  change (/ 10)%Q with (1 # 10)%Q in *.
  set (sx := (spos touch).1) in *. set (sy := (spos touch).2) in *.
  assert (Hsx : (0.125 <= sx <= 0.875)%Q) by (split; Lqa.nra).
  assert (Hsy : (0.1 <= sy <= 0.85)%Q) by (split; Lqa.nra).
  assert (Hmx : (0 <= (mapped touch).1 <= 0.99975)%Q).
  { rewrite mapped_eq. simpl. fold sx. split; Lqa.lra. }
  assert (Hmy : (0 <= (mapped touch).2 <= 0.99975)%Q).
  { rewrite mapped_eq. simpl. fold sy. split; Lqa.lra. }
  assert (Hin : inside touch).
  { split; split; (apply Hmx || apply Hmy || (destruct Hmx, Hmy; Lqa.lra)). }
  split; [done|]. split; [apply Hmx|]. split; [apply Hmy|].
  intros Hrows Hcols.
  destruct (pixel_index_bounds touch image Hin) as [[Hx _] [Hy _]].
  rewrite pixel_index_eq in *. unfold shape in *. simpl in *.
  split; (split; [done|]); apply int_lt; try done;
    (apply Hmx || apply Hmy || (destruct Hmx, Hmy; Lqa.lra)).
Qed.

Lemma touch_on_rect_is_poked_witness :
  inside touch_centre
  ∧ ((mapped touch_centre).1 <= 0.99975)%Q
  ∧ ((mapped touch_centre).2 <= 0.99975)%Q
  ∧ ((0 < (shape (uniform grey)).1)%Z → (0 < (shape (uniform grey)).2)%Z →
     (0 ≤ (pixel_index touch_centre (uniform grey)).1
      < (shape (uniform grey)).2)%Z
     ∧ (0 ≤ (pixel_index touch_centre (uniform grey)).2
        < (shape (uniform grey)).1)%Z).
Proof.
  apply (touch_on_rect_is_poked (0, 0)%Q 800 600 touch_centre (uniform grey));
    by vm_compute.
Defined.

(** X18.  A touch to the left of or below the rectangle, or beyond its right or
    top edge by more than 0.0002 of the width or height, fails the guard:
    the poke changes nothing. *)
Theorem touch_off_rect_is_ignored (pos : Q * Q) (width height : Q)
    (touch : Touch) (w : World) :
  let canvas := resize pos (width, height) in
  let px := ((spos touch).1 * width)%Q in
  let py := ((spos touch).2 * height)%Q in
  (0 < width)%Q → (0 < height)%Q →
  (px < (rect_pos canvas).1)%Q
  ∨ ((rect_pos canvas).1 + (rect_size canvas).1 + 0.0002 * width < px)%Q
  ∨ (py < (rect_pos canvas).2)%Q
  ∨ ((rect_pos canvas).2 + (rect_size canvas).2 + 0.0002 * height < py)%Q →
  poke touch w = w.
Proof.
  intros canvas px py Hw Hh Hoff. apply poke_outside.
  unfold canvas, px, py, resize, IMAGE_SCALE in *. simpl in *.
  unfold Qdiv in *. change (/ 2)%Q with (1 # 2)%Q in *.
  change (/ 10)%Q with (1 # 10)%Q in *.
  unfold inside. rewrite mapped_eq. simpl.
  set (sx := (spos touch).1) in *. set (sy := (spos touch).2) in *.
  intros [[Hx0 Hx1] [Hy0 Hy1]].
  destruct Hoff as [H|[H|[H|H]]]; Lqa.nra.
Qed.

Lemma touch_off_rect_is_ignored_witness :
  poke touch_outside (chisel_with (uniform grey)) = chisel_with (uniform grey).
Proof.
  apply (touch_off_rect_is_ignored (0, 0)%Q 800 600 touch_outside
           (chisel_with (uniform grey))); [by vm_compute|by vm_compute|].
  left. by vm_compute.
Defined.
